(** * PersistFormikValues: a model of [src/PersistFormikValues.tsx]

    The component persists the values of a Formik form to a key-value
    store and merges them back when it mounts.  This file embeds its
    functions ([getHash], [useBrowser], [useStorage], the three parts of
    [usePersistedString], and the two callbacks of
    [PersistFormikValuesMemo]) and proves properties of them.

    Conventions of the embedding.
    - A JavaScript string is a [string]; a character is one code unit
      (the model has the code units 0..255).
    - A JavaScript number is an IEEE 754 binary64 value.  The checksum
      of [getHash] is embedded twice: [getHash_binary64] computes it in
      that arithmetic, as the source does, and [getHash] computes the
      same sum over [Z].  The two agree as long as the specificity is
      an integer and no number of magnitude 2^53 or more appears
      (lemma [getHash_binary64_of_Z]); the key of a form is modelled
      for such checksums, which Number-to-string prints digit by digit.
    - A call that can throw returns a [completion]; code that also
      touches the store, the console, Formik or the job queue lives in
      the monad [M] over [World].
    - [JSON.stringify] and [JSON.parse] are builtins of the host; the
      component is modelled for any pair of them (Section variables) and
      module [Host] gives a reference pair for running examples. *)

From Stdlib Require Import ZArith Lia String Ascii List.
From Stdlib Require Import Floats.SpecFloat.
From stdpp Require Import base option list strings gmap pretty.

Set Warnings "-register-all".
Local Open Scope Z_scope.

(** ** Completions *)

(** What a [throw] carries. *)
Inductive exn : Type :=
| TypeError (msg : string)
| SyntaxError (msg : string)
| ReferenceError (msg : string)
| DOMException (name : string)
| Thrown (payload : string).

(** The result of evaluating an expression: a value or an abrupt
    completion. *)
Inductive completion (A : Type) : Type :=
| Normal (a : A)
| Throw (e : exn).

Arguments Normal {A} a.
Arguments Throw {A} e.

Global Instance completion_ret : MRet completion := λ A a, Normal a.
Global Instance completion_bind : MBind completion := λ A B k c,
  match c with
  | Normal a => k a
  | Throw e => Throw e
  end.

(** [try { body } catch (error) { handler }] for a body and a handler
    without other effects. *)
Definition ctry {A} (body : completion A) (handler : exn → A) : A :=
  match body with
  | Normal a => a
  | Throw e => handler e
  end.

(** ** Values *)

(** The data a form holds.  [VAncestor up] is a reference to the
    [up]-th object or array that encloses it, which is how a cyclic
    structure looks from inside a traversal. *)
Inductive value : Type :=
| VUndefined
| VNull
| VBool (b : bool)
| VNum (n : Z)
| VBigInt (n : Z)
| VStr (s : string)
| VArr (elems : list value)
| VObj (props : list (string * value))
| VAncestor (up : nat).

(** Optional props and flags are tested for truthiness. *)
Definition truthy (flag : option bool) : bool := default false flag.

(** *** Own properties and their order *)

Fixpoint digits_value (s : string) (acc : N) : option N :=
  match s with
  | EmptyString => Some acc
  | String c s' =>
      match Ascii.is_nat c with
      | Some d => digits_value s' (acc * 10 + N.of_nat d)%N
      | None => None
      end
  end.

(** A property key is an array index when it is the canonical decimal
    form of an integer below 2^32 - 1. *)
Definition array_index (k : string) : option N :=
  match k with
  | EmptyString => None
  | String "0" EmptyString => Some 0%N
  | String "0" _ => None
  | _ =>
      match digits_value k 0 with
      | Some n => if (n <? 4294967295)%N then Some n else None
      | None => None
      end
  end.

(** Own keys are enumerated with the array indices first, ascending,
    and the other keys after them in the order of their creation. *)
Definition comes_before (k k' : string) : bool :=
  match array_index k, array_index k' with
  | Some i, Some j => (i <? j)%N
  | Some _, None => true
  | None, _ => false
  end.

(** [o[k] = v] on the property list of an ordinary object. *)
Fixpoint set_prop (k : string) (v : value) (ps : list (string * value))
  : list (string * value) :=
  match ps with
  | [] => [(k, v)]
  | (k', v') :: ps' =>
      if decide (k = k') then (k, v) :: ps'
      else if comes_before k k' then (k, v) :: (k', v') :: ps'
      else (k', v') :: set_prop k v ps'
  end.

Fixpoint get_prop (k : string) (ps : list (string * value)) : option value :=
  match ps with
  | [] => None
  | (k', v') :: ps' => if decide (k = k') then Some v' else get_prop k ps'
  end.

Fixpoint chars_of (s : string) : list value :=
  match s with
  | EmptyString => []
  | String c s' => VStr (String c EmptyString) :: chars_of s'
  end.

Definition indexed (l : list value) : list (string * value) :=
  imap (λ i v, (pretty i, v)) l.

(** The own enumerable properties that a spread copies. *)
Definition own_props (v : value) : list (string * value) :=
  match v with
  | VObj ps => ps
  | VArr l => indexed l
  | VStr s => indexed (chars_of s)
  | _ => []
  end.

Definition assign (target source : list (string * value)) : list (string * value) :=
  foldl (λ o kv, set_prop kv.1 kv.2 o) target source.

(** [{...a, ...b}] *)
Definition spread (a b : value) : value :=
  VObj (assign (assign [] (own_props a)) (own_props b)).

(** Modelled from the spec: [omit] of the package lodash.omit, whose
    source is not part of the component.  It excludes the listed fields
    from the snapshot by their own name, not by a deep path: the
    result has the own enumerable properties of [object] whose key is
    not listed, in their order. *)
Definition omit (object : value) (props : list string) : value :=
  VObj (filter (λ kv, kv.1 ∉ props) (own_props object)).

(** ** Strings *)

(** The double quote, and a text between double quotes. *)
Definition DQ : ascii := "034"%char.
Definition quoted (s : string) : string :=
  String DQ (s +:+ String DQ EmptyString).

(** [chars.charCodeAt(i)]; out of range the source gets [NaN], which the
    loop of [getHash] never reads. *)
Definition charCodeAt (chars : string) (i : nat) : Z :=
  match String.get i chars with
  | Some c => Z.of_N (N_of_ascii c)
  | None => 0
  end.

(** [s.indexOf(pattern)] *)
Definition indexOf (s pattern : string) : Z :=
  match String.index 0 pattern s with
  | Some i => Z.of_nat i
  | None => -1
  end.

(** The characters matched by the regular expression of [getHash]: an
    opening brace, a double quote, a closing brace, a colon, a comma. *)
Definition punctuation (c : ascii) : bool :=
  bool_decide (c ∈ ["{"; DQ; "}"; ":"; ","]%char).

(** [s.replace(re, '')] for that expression, which has the flag [g]. *)
Fixpoint replace_punctuation (s : string) : string :=
  match s with
  | EmptyString => EmptyString
  | String c s' =>
      if punctuation c then replace_punctuation s'
      else String c (replace_punctuation s')
  end.

(** ** Numbers *)

(** A number of the source: a binary64 value, with 53 bits of precision
    and operations that round to the nearest value, ties to even. *)
Definition binary64 : Type := spec_float.

(** The number that an integer literal denotes: the nearest double. *)
Definition binary64_of_Z (z : Z) : binary64 := binary_normalize 53 1024 z 0 false.

(** [x + y] and [x * y] *)
Definition binary64_add : binary64 → binary64 → binary64 := SFadd 53 1024.
Definition binary64_mul : binary64 → binary64 → binary64 := SFmul 53 1024.

(** The integer that a number is, where it is one. *)
Definition binary64_to_Z (x : binary64) : option Z :=
  match x with
  | S754_zero _ => Some 0
  | S754_finite s m e =>
      if 0 <=? e then Some (cond_Zopp s (Z.pos m * 2 ^ e))
      else if Z.pos m mod 2 ^ (- e) =? 0
           then Some (cond_Zopp s (Z.pos m / 2 ^ (- e)))
           else None
  | _ => None
  end.

(** ** The world around the component *)

(** What [getItem] hands back and what the memoised state can hold:
    [string | void | null]. *)
Inductive item : Type :=
| IUndefined
| INull
| IStr (s : string).

Definition item_truthy (i : item) : bool :=
  match i with
  | IStr s => negb (bool_decide (s = EmptyString))
  | _ => false
  end.

(** [ToString] of an item, as [JSON.parse] applies it to its argument. *)
Definition item_to_string (i : item) : string :=
  match i with
  | IUndefined => "undefined"
  | INull => "null"
  | IStr s => s
  end.

Inductive promise : Type :=
| Fulfilled (v : item)
| Rejected (e : exn)
| Pending.

(** A store method returns a plain value or a promise. *)
Inductive returned : Type :=
| Sync (v : item)
| Async (p : promise).

(** [Promise.resolve(x)] *)
Definition Promise_resolve (x : returned) : promise :=
  match x with
  | Sync v => Fulfilled v
  | Async p => p
  end.

(** A storage backend: its methods act on the contents of the store,
    and [ownKeys] is what [Object.keys(storage)] lists.  [setItem]
    receives the result of [JSON.stringify], [None] being
    [undefined]. *)
Record Storage : Type := {
  getItem : string → gmap string string → completion returned;
  setItem : string → option string → gmap string string
            → completion unit * gmap string string;
  removeItem : string → gmap string string
               → completion unit * gmap string string;
  ownKeys : gmap string string → list string
}.

(** The promise reaction that [usePersistedString] registers: it holds
    the promise and the variable [item] that its callback assigns. *)
Inductive job : Type :=
| Reaction (p : promise) (cell : nat).

Record World : Type := {
  store : gmap string string;      (* contents of the resolved store *)
  console : list (string * exn);   (* calls of console.error, oldest first *)
  values : value;                  (* Formik: the current values *)
  setValues_calls : list value;    (* Formik: arguments of setValues, oldest first *)
  cells : list item;               (* variables captured by closures *)
  jobs : list job                  (* the job queue, oldest first *)
}.

Definition with_store (st : gmap string string) (w : World) : World :=
  {| store := st; console := console w; values := values w;
     setValues_calls := setValues_calls w; cells := cells w; jobs := jobs w |}.
Definition with_console (c : list (string * exn)) (w : World) : World :=
  {| store := store w; console := c; values := values w;
     setValues_calls := setValues_calls w; cells := cells w; jobs := jobs w |}.
Definition with_values (v : value) (calls : list value) (w : World) : World :=
  {| store := store w; console := console w; values := v;
     setValues_calls := calls; cells := cells w; jobs := jobs w |}.
Definition with_cells (c : list item) (w : World) : World :=
  {| store := store w; console := console w; values := values w;
     setValues_calls := setValues_calls w; cells := c; jobs := jobs w |}.
Definition with_jobs (j : list job) (w : World) : World :=
  {| store := store w; console := console w; values := values w;
     setValues_calls := setValues_calls w; cells := cells w; jobs := j |}.

(** *** The monad of effects *)

Definition M (A : Type) : Type := World → completion A * World.

Global Instance M_ret : MRet M := λ A a w, (Normal a, w).
Global Instance M_bind : MBind M := λ A B k m w,
  match m w with
  | (Normal a, w') => k a w'
  | (Throw e, w') => (Throw e, w')
  end.

Definition lift {A} (c : completion A) : M A := λ w, (c, w).

(** [try { body } catch (error) { handler error }] *)
Definition try_catch {A} (body : M A) (handler : exn → M A) : M A := λ w,
  match body w with
  | (Normal a, w') => (Normal a, w')
  | (Throw e, w') => handler e w'
  end.

(** [list.forEach(f)] *)
Fixpoint forEach {A} (l : list A) (f : A → M unit) : M unit :=
  match l with
  | [] => mret tt
  | x :: l' => _ ← f x; forEach l' f
  end.

Definition console_error (label : string) (error : exn) : M unit := λ w,
  (Normal tt, with_console (console w ++ [(label, error)]) w).

(** Formik's [setValues]: it replaces the values of the form. *)
Definition setValues (v : value) : M unit := λ w,
  (Normal tt, with_values v (setValues_calls w ++ [v]) w).

Definition get_values : M value := λ w, (Normal (values w), w).

(** A call of a store method that reads. *)
Definition call_get (f : gmap string string → completion returned) : M returned :=
  λ w, (f (store w), w).

(** A call of a store method that writes; what it returns is dropped. *)
Definition call_set
  (f : gmap string string → completion unit * gmap string string) : M unit :=
  λ w, let r := f (store w) in (r.1, with_store r.2 w).

Definition Object_keys (storage : Storage) : M (list string) := λ w,
  (Normal (ownKeys storage (store w)), w).

(** [let item;] *)
Definition declare (init : item) : M nat := λ w,
  (Normal (length (cells w)), with_cells (cells w ++ [init]) w).

Definition read (cell : nat) : M item := λ w,
  (Normal (default IUndefined (cells w !! cell)), w).

Definition assign_cell (cell : nat) (v : item) : M unit := λ w,
  (Normal tt, with_cells (<[cell := v]> (cells w)) w).

(** [p.then(value => { item = value }).catch(error => console.error(..))]:
    a settled promise queues its reaction, a pending one keeps it. *)
Definition then_catch (p : promise) (cell : nat) : M unit := λ w,
  match p with
  | Pending => (Normal tt, w)
  | _ => (Normal tt, with_jobs (jobs w ++ [Reaction p cell]) w)
  end.

Definition run_job (j : job) : M unit :=
  match j with
  | Reaction (Fulfilled v) cell => assign_cell cell v
  | Reaction (Rejected e) _ => console_error "ERROR GETTING ITEM " e
  | Reaction Pending _ => mret tt
  end.

(** The host runs the queued jobs once the running code has returned. *)
Definition run_jobs : M unit := λ w,
  forEach (jobs w) run_job (with_jobs [] w).

(** *** The browser *)

Record Window : Type := {
  localStorage : option Storage;
  sessionStorage : option Storage
}.

(** The global identifier [window]: not declared at all, or declared
    with a value that may be [undefined]. *)
Inductive binding : Type :=
| Undeclared
| Declared (w : option Window).

(** Web Storage over a store of finite capacity: [setItem] converts its
    argument to a string, returns at once when the key already holds that
    string, and throws when the new store would exceed the quota. *)
Definition DOMString (v : option string) : string := default "undefined" v.

Definition store_size (st : gmap string string) : nat :=
  map_fold (λ k v n, (String.length k + String.length v + n)%nat) 0%nat st.

Definition webStorage (quota : nat) : Storage := {|
  getItem key st :=
    Normal (Sync (match st !! key with Some v => IStr v | None => INull end));
  setItem key v st :=
    let st' := <[key := DOMString v]> st in
    if decide (st !! key = Some (DOMString v)) then (Normal tt, st)
    else if decide (store_size st' ≤ quota)%nat then (Normal tt, st')
    else (Throw (DOMException "QuotaExceededError"), st);
  removeItem key st := (Normal tt, delete key st);
  ownKeys st := (map_to_list st).*1
|}.

(** ** The component's props *)

Inductive storage_prop : Type :=
| sessionStorage_name
| localStorage_name
| storage_object (s : Storage).

(** The props; the component is modelled for a [hashSpecificity] that
    is an integer, [getHash_binary64] for any number. *)
Record PersistFormikValuesProps : Type := {
  name : string;
  debounce : option Z;
  storage : option storage_prop;
  persistInvalid : option bool;
  hashInitials : option bool;
  hashSpecificity : option Z;
  ignoreValues : option (list string);
  parseValues : option (value → value)
}.

Definition KEY_DELIMITER : string := "_".

Section Component.

(** The host's [JSON.stringify] ([None] is [undefined]) and
    [JSON.parse]. *)
Variable JSON_stringify : value → completion (option string).
Variable JSON_parse : string → completion value.

(** [x.replace(...)] where [x] may be [undefined]. *)
Definition method_replace (x : option string) : completion string :=
  match x with
  | Some s => Normal (replace_punctuation s)
  | None => Throw (TypeError "Cannot read properties of undefined")
  end.

(** [for (let i = 0; i < len; i++) hc += chars.charCodeAt(i) * specificity],
    with [fuel] iterations left, summed over the integers. *)
Fixpoint getHash_loop (chars : string) (specificity : Z) (fuel i : nat) (hc : Z) : Z :=
  match fuel with
  | O => hc
  | S fuel' =>
      getHash_loop chars specificity fuel' (S i)
        (hc + charCodeAt chars i * specificity)
  end.

(** [getHash] over the integers, for an integer specificity: the sum
    that the source computes where it rounds nothing. *)
Definition getHash (obj : value) (specificity : option Z) : Z :=
  let specificity := default 7 specificity in
  let hc := 0 in
  ctry
    (json ← JSON_stringify obj;
     chars ← method_replace json;
     let len := String.length chars in
     mret (getHash_loop chars specificity len 0 hc))
    (λ error, 0).

(** The same loop and the same function in the arithmetic of the
    source: every product and every sum is rounded to a double, and the
    specificity is any number. *)
Fixpoint getHash_loop_binary64
  (chars : string) (specificity : binary64) (fuel i : nat) (hc : binary64)
  : binary64 :=
  match fuel with
  | O => hc
  | S fuel' =>
      getHash_loop_binary64 chars specificity fuel' (S i)
        (binary64_add hc
           (binary64_mul (binary64_of_Z (charCodeAt chars i)) specificity))
  end.

Definition getHash_binary64 (obj : value) (specificity : option binary64)
  : binary64 :=
  let specificity := default (binary64_of_Z 7) specificity in
  let hc := binary64_of_Z 0 in
  ctry
    (json ← JSON_stringify obj;
     chars ← method_replace json;
     let len := String.length chars in
     mret (getHash_loop_binary64 chars specificity len 0 hc))
    (λ error, binary64_of_Z 0).

(** [!!window] *)
Definition useBrowser (window : binding) : completion bool :=
  match window with
  | Undeclared => Throw (ReferenceError "window is not defined")
  | Declared w => Normal (bool_decide (is_Some w))
  end.

(** [window.localStorage] and [window.sessionStorage], read only where
    [isBrowser] holds. *)
Definition window_member (member : Window → option Storage) (window : binding)
  : option Storage :=
  match window with
  | Declared (Some w) => member w
  | _ => None
  end.

Definition useStorage (props : PersistFormikValuesProps) (window : binding)
  : completion (option Storage) :=
  let storage := default localStorage_name (storage props) in
  isBrowser ← useBrowser window;
  match storage with
  | sessionStorage_name =>
      mret (if (isBrowser : bool) then window_member sessionStorage window else None)
  | localStorage_name =>
      mret (if (isBrowser : bool) then window_member localStorage window else None)
  | storage_object s => mret (Some s)
  end.

(** The first [useMemo] of [usePersistedString]: React evaluates the
    dependency list, which serialises the initial values, and the
    callback computes the key.  The checksum in the key is the sum over
    the integers in decimal, which is the text that the template
    literal of the source gives where the specificity is an integer
    and the sum involves no rounding. *)
Definition usePersistedString_name
  (props : PersistFormikValuesProps) (initialValues : value) : completion string :=
  let defaultName := name props in
  let keyName := defaultName +:+ KEY_DELIMITER in
  deps ← JSON_stringify initialValues;
  mret (if truthy (hashInitials props)
        then keyName +:+ pretty (getHash initialValues (hashSpecificity props))
        else defaultName).

(** The second [useMemo]: the persisted string. *)
Definition usePersistedString_state (storage : option Storage) (name : string)
  : M item :=
  match storage with
  | Some storage =>
      item ← declare IUndefined;
      got ← call_get (getItem storage name);
      _ ← then_catch (Promise_resolve got) item;
      read item
  | None => mret INull
  end.

(** The read of the store as the host completes it: the second
    [useMemo], then the jobs it has queued. *)
Definition read_path (storage : option Storage) (name : string) : M item :=
  state ← usePersistedString_state storage name;
  _ ← run_jobs;
  mret state.

Definition handlePersistValues
  (storage : option Storage) (name keyName : string) (values : value) : M unit :=
  match storage with
  | Some storage =>
      json ← lift (JSON_stringify values);
      _ ← call_set (setItem storage name json);
      keys ← Object_keys storage;
      forEach keys (λ key,
        if bool_decide (indexOf key keyName > -1) && negb (bool_decide (key = name))
        then call_set (removeItem storage key)
        else mret tt)
  | None => mret tt
  end.

Definition usePersistedString
  (props : PersistFormikValuesProps) (window : binding) (initialValues : value)
  : M (item * (value → M unit)) :=
  let defaultName := name props in
  let keyName := defaultName +:+ KEY_DELIMITER in
  name ← lift (usePersistedString_name props initialValues);
  storage ← lift (useStorage props window);
  state ← usePersistedString_state storage name;
  mret (state, handlePersistValues storage name keyName).

(** The callback handed to [useDebounce]. *)
Definition handlePersist
  (props : PersistFormikValuesProps) (persistValues : value → M unit)
  (values : value) (isValid : bool) : M unit :=
  if isValid || truthy (persistInvalid props) then
    let valuesToPersist :=
      match ignoreValues props with
      | Some ignored => omit values ignored
      | None => values
      end in
    persistValues
      (match parseValues props with
       | Some parse => parse valuesToPersist
       | None => valuesToPersist
       end)
  else mret tt.

(** The body of the [useEffect] that merges the persisted values. *)
Definition restore
  (persistedString : item) (initialValues : value) (stringValues : option string)
  : M unit :=
  if item_truthy persistedString then
    try_catch
      (persistedValues ← lift (JSON_parse (item_to_string persistedString));
       let newValues := spread initialValues persistedValues in
       json ← lift (JSON_stringify newValues);
       if bool_decide (stringValues ≠ json) then setValues newValues
       else mret tt)
      (λ error, console_error "Parse persisted values is not possible" error)
  else mret tt.

(** One application of a persisted payload to the form: a render
    serialises the current values and its effect runs. *)
Definition apply_persisted (persistedString : item) (initialValues : value)
  : M unit :=
  values ← get_values;
  stringValues ← lift (JSON_stringify values);
  restore persistedString initialValues stringValues.

(** What the first render of [PersistFormikValuesMemo] hands to React:
    the effect, run after the render, and the callback that
    [useDebounce] calls when its timer fires.  On a later render React
    keeps the memoised closures whose dependencies are unchanged:
    [handlePersistValues] is kept until [storage] changes, with the
    [name] and [keyName] of the render that made it. *)
Record Rendered : Type := {
  effect : M unit;
  debounced : M unit
}.

Definition PersistFormikValuesMemo
  (props : PersistFormikValuesProps) (window : binding)
  (initialValues : value) (isValid : bool) : M Rendered :=
  values ← get_values;
  hook ← usePersistedString props window initialValues;
  let persistedString := hook.1 in
  let persistValues := hook.2 in
  stringValues ← lift (JSON_stringify values);
  mret {| effect := restore persistedString initialValues stringValues;
          debounced := handlePersist props persistValues values isValid |}.

(** Mounting: the first render, then the queued jobs, then the effect. *)
Definition mount
  (props : PersistFormikValuesProps) (window : binding)
  (initialValues : value) (isValid : bool) : M unit :=
  rendered ← PersistFormikValuesMemo props window initialValues isValid;
  _ ← run_jobs;
  effect rendered.

(** *** The debounced write under a stream of events *)

Inductive event : Type :=
| Change (v : value) (isValid : bool)
| TimerFires.

(** Modelled from the spec: [useDebounce] of the package react-use,
    whose source is not part of the component, called as
    [useDebounce(handlePersist, debounce, [stringValues, isValid,
    persistInvalid])].  A change of the form arms the timer again, and
    when the timer fires the callback of the latest render runs once;
    an exception of the callback ends that callback only. *)
Fixpoint run_events
  (props : PersistFormikValuesProps) (persistValues : value → M unit)
  (events : list event) (isValid armed : bool) (w : World) : World :=
  match events with
  | [] => w
  | Change v valid :: rest =>
      run_events props persistValues rest valid true
        (with_values v (setValues_calls w) w)
  | TimerFires :: rest =>
      run_events props persistValues rest isValid false
        (if armed then (handlePersist props persistValues (values w) isValid w).2
         else w)
  end.

Definition all_invalid (events : list event) : Prop :=
  ∀ v valid, Change v valid ∈ events → valid = false.

End Component.

(** ** A reference host *)

(** [JSON.stringify] and [JSON.parse] as ECMAScript defines them, on the
    values of this model.  The parser reads the texts whose numbers are
    integer literals and whose [\u] escapes denote a code unit below
    256; it rejects every other text. *)
Module Host.

Definition backslash : ascii := "092"%char.

Definition hex_digit (n : N) : ascii :=
  if (n <? 10)%N then ascii_of_N (48 + n) else ascii_of_N (87 + n).

Definition unicode_escape (c : ascii) : string :=
  let n := N_of_ascii c in
  String backslash
    ("u00" +:+ String (hex_digit (n / 16)) (String (hex_digit (n mod 16)) EmptyString)).

Definition quote_char (c : ascii) : string :=
  let escape (x : ascii) := String backslash (String x EmptyString) in
  if decide (c = DQ) then escape DQ
  else if decide (c = backslash) then escape backslash
  else if decide (c = "008"%char) then escape "b"%char
  else if decide (c = "012"%char) then escape "f"%char
  else if decide (c = "010"%char) then escape "n"%char
  else if decide (c = "013"%char) then escape "r"%char
  else if decide (c = "009"%char) then escape "t"%char
  else if (N_of_ascii c <? 32)%N then unicode_escape c
  else String c EmptyString.

Fixpoint quote_chars (s : string) : string :=
  match s with
  | EmptyString => EmptyString
  | String c s' => quote_char c +:+ quote_chars s'
  end.

Definition QuoteJSONString (s : string) : string := quoted (quote_chars s).

Fixpoint join (sep : string) (parts : list string) : string :=
  match parts with
  | [] => EmptyString
  | [p] => p
  | p :: rest => p +:+ sep +:+ join sep rest
  end.

Fixpoint JSON_stringify (v : value) : completion (option string) :=
  match v with
  | VUndefined => Normal None
  | VNull => Normal (Some "null")
  | VBool b => Normal (Some (if b then "true" else "false"))
  | VNum n => Normal (Some (pretty n))
  | VBigInt _ => Throw (TypeError "Do not know how to serialize a BigInt")
  | VStr s => Normal (Some (QuoteJSONString s))
  | VArr elems =>
      parts ← (fix elements (l : list value) : completion (list string) :=
                 match l with
                 | [] => Normal []
                 | x :: l' =>
                     text ← JSON_stringify x;
                     rest ← elements l';
                     Normal (default "null" text :: rest)
                 end) elems;
      Normal (Some ("[" +:+ join "," parts +:+ "]"))
  | VObj props =>
      parts ← (fix members (l : list (string * value)) : completion (list string) :=
                 match l with
                 | [] => Normal []
                 | (k, x) :: l' =>
                     text ← JSON_stringify x;
                     rest ← members l';
                     Normal (match text with
                             | Some t => (QuoteJSONString k +:+ ":" +:+ t) :: rest
                             | None => rest
                             end)
                 end) props;
      Normal (Some ("{" +:+ join "," parts +:+ "}"))
  | VAncestor _ => Throw (TypeError "Converting circular structure to JSON")
  end.

(** *** Parsing *)

Definition is_ws (c : ascii) : bool :=
  bool_decide (c ∈ [" "; "009"; "010"; "013"]%char).

Fixpoint skip_ws (s : string) : string :=
  match s with
  | String c s' => if is_ws c then skip_ws s' else s
  | EmptyString => s
  end.

Definition hex_value (c : ascii) : option N :=
  let n := N_of_ascii c in
  if (48 <=? n)%N && (n <=? 57)%N then Some (n - 48)%N
  else if (97 <=? n)%N && (n <=? 102)%N then Some (n - 87)%N
  else if (65 <=? n)%N && (n <=? 70)%N then Some (n - 55)%N
  else None.

Definition simple_escape (c : ascii) : option ascii :=
  if decide (c = DQ) then Some DQ
  else if decide (c = backslash) then Some backslash
  else if decide (c = "/"%char) then Some "/"%char
  else if decide (c = "b"%char) then Some "008"%char
  else if decide (c = "f"%char) then Some "012"%char
  else if decide (c = "n"%char) then Some "010"%char
  else if decide (c = "r"%char) then Some "013"%char
  else if decide (c = "t"%char) then Some "009"%char
  else None.

(** The characters of a string literal after its opening quote, and the
    text after its closing quote. *)
Fixpoint string_body (s : string) : option (string * string) :=
  match s with
  | EmptyString => None
  | String c s' =>
      if decide (c = DQ) then Some (EmptyString, s')
      else if decide (c = backslash) then
        match s' with
        | String "u" (String a (String b (String c1 (String c2 s'')))) =>
            match hex_value a, hex_value b, hex_value c1, hex_value c2 with
            | Some 0%N, Some 0%N, Some h, Some l =>
                r ← string_body s'';
                Some (String (ascii_of_N (16 * h + l)) r.1, r.2)
            | _, _, _, _ => None
            end
        | String e s'' =>
            x ← simple_escape e;
            r ← string_body s'';
            Some (String x r.1, r.2)
        | EmptyString => None
        end
      else if (N_of_ascii c <? 32)%N then None
      else r ← string_body s'; Some (String c r.1, r.2)
  end.

Definition is_digit (c : ascii) : bool := bool_decide (is_Some (Ascii.is_nat c)).

Fixpoint digits (s : string) (acc : Z) : Z * string :=
  match s with
  | String c s' =>
      match Ascii.is_nat c with
      | Some d => digits s' (acc * 10 + Z.of_nat d)
      | None => (acc, s)
      end
  | EmptyString => (acc, s)
  end.

(** An integer literal: no leading zero, no fraction, no exponent. *)
Definition number (s : string) : option (Z * string) :=
  let '(negative, s) :=
    match s with
    | String "-" s' => (true, s')
    | _ => (false, s)
    end in
  r ← match s with
      | String "0" s' => Some (0, s')
      | String c _ => if is_digit c then Some (digits s 0) else None
      | EmptyString => None
      end;
  match r.2 with
  | String c _ =>
      if bool_decide (c ∈ ["."; "e"; "E"]%char) then None
      else if is_digit c then None
      else Some (if negative : bool then - r.1 else r.1, r.2)
  | EmptyString => Some (if negative : bool then - r.1 else r.1, r.2)
  end.

Definition keyword (k : string) (v : value) (s : string) : option (value * string) :=
  if String.prefix k s
  then Some (v, String.substring (String.length k) (String.length s) s)
  else None.

Fixpoint json_value (fuel : nat) (s : string) : option (value * string) :=
  match fuel with
  | O => None
  | S fuel' =>
      match skip_ws s with
      | String "n" _ as s => keyword "null" VNull s
      | String "t" _ as s => keyword "true" (VBool true) s
      | String "f" _ as s => keyword "false" (VBool false) s
      | String "[" s' =>
          match skip_ws s' with
          | String "]" rest => Some (VArr [], rest)
          | _ => r ← json_elements fuel' s'; Some (VArr r.1, r.2)
          end
      | String "{" s' =>
          match skip_ws s' with
          | String "}" rest => Some (VObj [], rest)
          | _ => r ← json_members fuel' [] s'; Some (VObj r.1, r.2)
          end
      | String c s' as s =>
          if decide (c = DQ) then r ← string_body s'; Some (VStr r.1, r.2)
          else r ← number s; Some (VNum r.1, r.2)
      | EmptyString => None
      end
  end
with json_elements (fuel : nat) (s : string) : option (list value * string) :=
  match fuel with
  | O => None
  | S fuel' =>
      r ← json_value fuel' s;
      match skip_ws r.2 with
      | String "," rest => q ← json_elements fuel' rest; Some (r.1 :: q.1, q.2)
      | String "]" rest => Some ([r.1], rest)
      | _ => None
      end
  end
with json_members (fuel : nat) (acc : list (string * value)) (s : string)
  : option (list (string * value) * string) :=
  match fuel with
  | O => None
  | S fuel' =>
      match skip_ws s with
      | String c s' =>
          if decide (c = DQ) then
            k ← string_body s';
            match skip_ws k.2 with
            | String ":" s'' =>
                r ← json_value fuel' s'';
                let acc := set_prop k.1 r.1 acc in
                match skip_ws r.2 with
                | String "," rest => json_members fuel' acc rest
                | String "}" rest => Some (acc, rest)
                | _ => None
                end
            | _ => None
            end
          else None
      | EmptyString => None
      end
  end.

Definition JSON_parse (text : string) : completion value :=
  match json_value (S (String.length text)) text with
  | Some (v, rest) =>
      match skip_ws rest with
      | EmptyString => Normal v
      | _ => Throw (SyntaxError "Unexpected non-whitespace character after JSON")
      end
  | None => Throw (SyntaxError "Unexpected token in JSON")
  end.

End Host.

(** ** Specification-level definitions *)

(** The checksum in the words of its description: strip the five
    punctuation characters from the text and sum the character codes,
    each multiplied by the specificity. *)
Definition stripped : list ascii := ["{"; DQ; "}"; ":"; ","]%char.

Definition checksum (json : string) (specificity : Z) : Z :=
  foldr (λ c sum, Z.of_N (N_of_ascii c) * specificity + sum) 0
    (filter (λ c, c ∉ stripped) (list_ascii_of_string json)).

(** The checksum of a value given what serialising it produced: 0 when
    there is no text. *)
Definition checksum_of (serialised : completion (option string)) (specificity : Z) : Z :=
  match serialised with
  | Normal (Some json) => checksum json specificity
  | _ => 0
  end.

(** An integer that the numbers of the source hold exactly, with its
    neighbours. *)
Definition safe_integer (z : Z) : Prop := Z.abs z < 2 ^ 53.

(** The checksum of a serialised text at an integer specificity involves
    no rounding: the specificity and the sum are safe integers, and with
    them every product and every partial sum of the loop. *)
Definition exactly_summed
  (serialised : completion (option string)) (specificity : Z) : Prop :=
  safe_integer specificity ∧ safe_integer (checksum_of serialised specificity).

(** The significand [N] shifted by [n] binary places, and the double
    that holds a non-zero safe integer of magnitude [N]. *)
Definition shifted (N : positive) (n : nat) : positive := Nat.iter n xO N.

Definition canonical (s : bool) (N : positive) : binary64 :=
  S754_finite s (shifted N (53 - Pos.size_nat N)) (Z.of_nat (Pos.size_nat N) - 53).

(** The key of a form: its name, or its name, the delimiter and the
    checksum of the initial values. *)
Definition resolved_key
  (formName : string) (useHash : bool) (sum : Z) : string :=
  if useHash then formName +:+ "_" +:+ pretty sum else formName.

(** An object has each of its keys once. *)
Definition well_formed (v : value) : Prop := NoDup (own_props v).*1.

(** The keys that a write under [name] prunes. *)
Definition superseded (keyName name key : string) : bool :=
  bool_decide (indexOf key keyName > -1) && negb (bool_decide (key = name)).

Definition prune (keyName name : string) (keys : list string)
  (st : gmap string string) : gmap string string :=
  foldl (λ st key, if superseded keyName name key then delete key st else st)
    st keys.

(** A computation leaves the form alone: it keeps the values, calls
    [setValues] not at all, and what it returns satisfies [P]. *)
Definition keeps_form {A} (m : M A) (P : A → Prop) : Prop :=
  ∀ w,
    values (m w).2 = values w
    ∧ setValues_calls (m w).2 = setValues_calls w
    ∧ match (m w).1 with
      | Normal a => P a
      | Throw _ => True
      end.

(** The snapshot that a write persists. *)
Definition snapshot (props : PersistFormikValuesProps) (values : value) : value :=
  let filtered := from_option (omit values) values (ignoreValues props) in
  from_option (λ parse, parse filtered) filtered (parseValues props).

(** ** Concrete inputs *)

Module Examples.

Definition props (formName : string) : PersistFormikValuesProps := {|
  name := formName;
  debounce := None;
  storage := None;
  persistInvalid := None;
  hashInitials := None;
  hashSpecificity := None;
  ignoreValues := None;
  parseValues := None
|}.

Definition hashed (formName : string) : PersistFormikValuesProps := {|
  name := formName;
  debounce := None;
  storage := None;
  persistInvalid := None;
  hashInitials := Some true;
  hashSpecificity := None;
  ignoreValues := None;
  parseValues := None
|}.

Definition ignoring (formName : string) (ignored : list string)
  : PersistFormikValuesProps := {|
  name := formName;
  debounce := None;
  storage := None;
  persistInvalid := None;
  hashInitials := None;
  hashSpecificity := None;
  ignoreValues := Some ignored;
  parseValues := None
|}.

Definition custom (formName : string) (s : Storage)
  : PersistFormikValuesProps := {|
  name := formName;
  debounce := None;
  storage := Some (storage_object s);
  persistInvalid := None;
  hashInitials := None;
  hashSpecificity := None;
  ignoreValues := None;
  parseValues := None
|}.

Definition world (st : gmap string string) (v : value) : World := {|
  store := st;
  console := [];
  values := v;
  setValues_calls := [];
  cells := [];
  jobs := []
|}.

(** A browser whose two stores hold up to 5000 characters. *)
Definition browser : binding :=
  Declared (Some {| localStorage := Some (webStorage 5000);
                    sessionStorage := Some (webStorage 5000) |}).

(** A custom store whose [getItem] returns a promise that rejects. *)
Definition rejecting (e : exn) : Storage := {|
  getItem _ _ := Normal (Async (Rejected e));
  setItem _ _ st := (Normal tt, st);
  removeItem _ st := (Normal tt, st);
  ownKeys _ := []
|}.

(** A custom store whose [getItem] returns a promise of the stored
    text. *)
Definition asynchronous : Storage := {|
  getItem key st :=
    Normal (Async (Fulfilled (from_option IStr INull (st !! key))));
  setItem key v st := (Normal tt, <[key := DOMString v]> st);
  removeItem key st := (Normal tt, delete key st);
  ownKeys st := (map_to_list st).*1
|}.

Definition credentials : value :=
  VObj [("username", VStr "a"); ("password", VStr "b")].

(** The text [{"a":1}] and two of its relatives. *)
Definition a_is (n : Z) : string :=
  "{" +:+ quoted "a" +:+ ":" +:+ pretty n +:+ "}".

Definition username_a : string :=
  "{" +:+ quoted "username" +:+ ":" +:+ quoted "a" +:+ "}".

Definition cyclic : value := VObj [("self", VAncestor 0)].

(** A form whose store holds an earlier snapshot. *)
Definition a_is_0 : value := VObj [("a", VNum 0)].
Definition a_is_1 : value := VObj [("a", VNum 1)].
Definition revisited : World := world {[ "form" := a_is 1 ]} a_is_0.

(** A store that holds the snapshot of an earlier shape of the form. *)
Definition rotated : World := world {[ "form_123" := a_is 0 ]} a_is_1.

End Examples.

(** ** Further inputs *)

Module Scenarios.

(** A store shared with another form, whose key contains the key
    prefix of the form named [form]. *)
Definition shared : World :=
  Examples.world {[ "platform_settings" := "dark"; "other" := "kept" ]}
    Examples.a_is_1.


(** A store whose payload for the form named [form] is not JSON. *)
Definition corrupt : World :=
  Examples.world {[ "form" := "{oops" ]} Examples.a_is_0.

(** A store that holds a payload written while the key was the plain
    name of the form. *)
Definition unhashed : World :=
  Examples.world {[ "form" := Examples.a_is 0 ]} Examples.a_is_1.

(** A custom store whose [getItem] throws. *)
Definition throwing (e : exn) : Storage := {|
  getItem _ _ := Throw e;
  setItem _ _ st := (Normal tt, st);
  removeItem _ st := (Normal tt, st);
  ownKeys _ := []
|}.

(** A host with a [window] that has no Web Storage. *)
Definition storeless : binding :=
  Declared (Some {| localStorage := None; sessionStorage := None |}).

(** Two forms whose initial values are exchanged between the fields. *)
Definition a1_b2 : value := VObj [("a", VNum 1); ("b", VNum 2)].
Definition a2_b1 : value := VObj [("a", VNum 2); ("b", VNum 1)].

(** Props whose [parseValues] answers [undefined]. *)
Definition discarding (formName : string) : PersistFormikValuesProps := {|
  name := formName;
  debounce := None;
  storage := None;
  persistInvalid := None;
  hashInitials := None;
  hashSpecificity := None;
  ignoreValues := None;
  parseValues := Some (λ _, VUndefined)
|}.

End Scenarios.

(** * Properties *)

(** ** Strings and the loop of [getHash] *)

Lemma append_cons (a : ascii) (s t : string) :
  String a s +:+ t = String a (s +:+ t).
Proof. reflexivity. Qed.

Lemma append_assoc (s t u : string) : (s +:+ t) +:+ u = s +:+ t +:+ u.
Proof.
  induction s as [|a s IH]; [done|].
  rewrite !append_cons. by rewrite IH.
Qed.

Lemma length_snoc (pre : string) (c : ascii) :
  String.length (pre +:+ String c EmptyString) = S (String.length pre).
Proof.
  induction pre as [|a pre IH]; [done|].
  rewrite append_cons. simpl. by rewrite IH.
Qed.

Lemma append_snoc (pre : string) (c : ascii) (rest : string) :
  (pre +:+ String c EmptyString) +:+ rest = pre +:+ String c rest.
Proof.
  induction pre as [|a pre IH]; [done|].
  rewrite !append_cons. by rewrite IH.
Qed.

Lemma get_after_prefix (pre : string) (c : ascii) (rest : string) :
  String.get (String.length pre) (pre +:+ String c rest) = Some c.
Proof.
  induction pre as [|a pre IH]; [done|].
  rewrite append_cons. simpl. apply IH.
Qed.

Lemma charCodeAt_after_prefix (pre : string) (c : ascii) (rest : string) :
  charCodeAt (pre +:+ String c rest) (String.length pre) = Z.of_N (N_of_ascii c).
Proof. unfold charCodeAt. by rewrite get_after_prefix. Qed.

(** The loop, started behind a prefix with as many iterations as
    characters remain, adds the weighted codes of those characters. *)
Lemma getHash_loop_from (rest : string) :
  ∀ (pre : string) (specificity hc : Z),
    getHash_loop (pre +:+ rest) specificity
      (String.length rest) (String.length pre) hc
    = hc + foldr (λ c sum, Z.of_N (N_of_ascii c) * specificity + sum) 0
             (list_ascii_of_string rest).
Proof.
  induction rest as [|c rest IH]; intros pre specificity hc; simpl.
  - lia.
  - rewrite charCodeAt_after_prefix.
    rewrite <- (append_snoc pre c rest), <- (length_snoc pre c).
    rewrite IH. lia.
Qed.

Lemma getHash_loop_whole (chars : string) (specificity : Z) :
  getHash_loop chars specificity (String.length chars) 0 0
  = foldr (λ c sum, Z.of_N (N_of_ascii c) * specificity + sum) 0
      (list_ascii_of_string chars).
Proof. apply (getHash_loop_from chars EmptyString specificity 0). Qed.

Lemma punctuation_stripped (c : ascii) :
  punctuation c = bool_decide (c ∈ stripped).
Proof. done. Qed.

Lemma replace_punctuation_filter (s : string) :
  list_ascii_of_string (replace_punctuation s)
  = filter (λ c, c ∉ stripped) (list_ascii_of_string s).
Proof.
  induction s as [|c s IH]; simpl; [done|].
  rewrite punctuation_stripped. case_bool_decide as Hc.
  - rewrite filter_cons_False; [done | by intros Hn].
  - rewrite filter_cons_True by done. simpl. by rewrite IH.
Qed.

Lemma weighted_sum_linear (codes : list ascii) (s : Z) :
  foldr (λ c sum, Z.of_N (N_of_ascii c) * s + sum) 0 codes
  = s * foldr (λ c sum, Z.of_N (N_of_ascii c) * 1 + sum) 0 codes.
Proof. induction codes as [|c codes IH]; simpl; [lia | rewrite IH; lia]. Qed.

Lemma checksum_linear (json : string) (s : Z) :
  checksum json s = s * checksum json 1.
Proof. apply weighted_sum_linear. Qed.

(** For a specificity that is not negative the sum is not negative;
    the model has the code units below 256. *)
Lemma weighted_sum_bounded (codes : list ascii) (s : Z) :
  0 ≤ s →
  0 ≤ foldr (λ c sum, Z.of_N (N_of_ascii c) * s + sum) 0 codes
    ≤ 255 * s * Z.of_nat (length codes).
Proof.
  intros Hs. induction codes as [|c codes IH]; simpl length; simpl foldr; [lia|].
  pose proof (N_ascii_bounded c). nia.
Qed.

Lemma checksum_of_linear (r : completion (option string)) (s : Z) :
  checksum_of r s = s * checksum_of r 1.
Proof.
  destruct r as [[json|]|e]; simpl; try lia. apply checksum_linear.
Qed.

Section Checksum.

Variable JSON_stringify : value → completion (option string).

(** [getHash] computes the checksum of the serialised text, and 0 when
    serialising throws or yields [undefined]. *)
Lemma getHash_checksum (obj : value) (specificity : option Z) :
  getHash JSON_stringify obj specificity
  = checksum_of (JSON_stringify obj) (default 7 specificity).
Proof.
  unfold getHash, checksum_of.
  destruct (JSON_stringify obj) as [[json|]|e]; simpl; try done.
  unfold checksum. rewrite getHash_loop_whole.
  by rewrite replace_punctuation_filter.
Qed.

Lemma getHash_linear (obj : value) (s : Z) :
  getHash JSON_stringify obj (Some s)
  = s * getHash JSON_stringify obj (Some 1).
Proof. rewrite !getHash_checksum. apply checksum_of_linear. Qed.

Lemma getHash_default (obj : value) :
  getHash JSON_stringify obj None = getHash JSON_stringify obj (Some 7).
Proof. by rewrite !getHash_checksum. Qed.

Lemma usePersistedString_name_serialisable
  (props : PersistFormikValuesProps) (initialValues : value) :
  (∀ e, JSON_stringify initialValues ≠ Throw e) →
  usePersistedString_name JSON_stringify props initialValues
  = Normal (resolved_key (name props) (truthy (hashInitials props))
              (getHash JSON_stringify initialValues (hashSpecificity props))).
Proof.
  intros Hser. unfold usePersistedString_name, resolved_key, KEY_DELIMITER.
  destruct (JSON_stringify initialValues) as [deps|e] eqn:E; simpl.
  - by rewrite append_assoc.
  - by destruct (Hser e).
Qed.

End Checksum.

(** ** Doubles on the safe integers *)

(** The arithmetic of binary64 is exact on the integers below 2^53 in
    magnitude: the conversion, the sum and the product of such integers
    are the doubles of the integers they denote. *)

Lemma digits2_size (p : positive) : Z.pos (digits2_pos p) = Z.of_nat (Pos.size_nat p).
Proof. induction p; simpl Pos.size_nat; simpl digits2_pos; lia. Qed.

Lemma size_shifted (N : positive) (n : nat) :
  Pos.size_nat (shifted N n) = (Pos.size_nat N + n)%nat.
Proof. induction n as [|n IH]; simpl; lia. Qed.

Lemma shifted_value (N : positive) (n : nat) :
  Z.pos (shifted N n) = Z.pos N * 2 ^ Z.of_nat n.
Proof.
  induction n as [|n IH]; [simpl; lia|].
  change (shifted N (S n)) with (xO (shifted N n)).
  rewrite Pos2Z.inj_xO, IH, Nat2Z.inj_succ, Z.pow_succ_r by lia. lia.
Qed.

Lemma shifted_add (N : positive) (n k : nat) :
  shifted (shifted N n) k = shifted N (n + k).
Proof. induction k; simpl; [f_equal; lia|]. rewrite Nat.add_succ_r. simpl. f_equal. done. Qed.

Lemma iter_pos_nat {A} (f : A → A) (p : positive) (x : A) :
  SpecFloat.iter_pos f p x = Nat.iter (Pos.to_nat p) f x.
Proof.
  revert x. induction p as [p IH|p IH|]; intros x.
  - change (SpecFloat.iter_pos f p~1 x)
      with (SpecFloat.iter_pos f p (SpecFloat.iter_pos f p (f x))).
    rewrite !IH, Pos2Nat.inj_xI.
    replace (S (2 * Pos.to_nat p)) with (Pos.to_nat p + (Pos.to_nat p + 1))%nat by lia.
    rewrite !Nat.iter_add. by rewrite (Nat.iter_succ_r 0).
  - change (SpecFloat.iter_pos f p~0 x)
      with (SpecFloat.iter_pos f p (SpecFloat.iter_pos f p x)).
    rewrite !IH, Pos2Nat.inj_xO.
    replace (2 * Pos.to_nat p)%nat with (Pos.to_nat p + Pos.to_nat p)%nat by lia.
    by rewrite Nat.iter_add.
  - done.
Qed.

Lemma shr_exact (N : positive) (k : nat) :
  Nat.iter k shr_1 {| shr_m := Z.pos (shifted N k); shr_r := false; shr_s := false |}
  = {| shr_m := Z.pos N; shr_r := false; shr_s := false |}.
Proof.
  induction k as [|k IH]; [done|].
  rewrite Nat.iter_succ_r. exact IH.
Qed.

Lemma fexp_normal (d : Z) : 0 < d → fexp 53 1024 d = d - 53.
Proof. intros Hd. unfold fexp, emin. lia. Qed.

Lemma shr_by (N : positive) (j : nat) (e : Z) :
  shr {| shr_m := Z.pos (shifted N j); shr_r := false; shr_s := false |} e (Z.of_nat j)
  = ({| shr_m := Z.pos N; shr_r := false; shr_s := false |}, e + Z.of_nat j).
Proof.
  destruct j as [|j]; [simpl; f_equal; lia|].
  unfold shr. rewrite Nat2Z.inj_succ, <- Zpos_P_of_succ_nat.
  rewrite iter_pos_nat, SuccNat2Pos.id_succ. by rewrite shr_exact.
Qed.

Lemma round_aux_exact (s : bool) (N : positive) (k : nat) :
  (Pos.size_nat N ≤ 53)%nat →
  (53 ≤ Pos.size_nat N + k)%nat →
  binary_round_aux 53 1024 s (Z.pos (shifted N k)) (- Z.of_nat k) loc_Exact
  = canonical s N.
Proof.
  intros Hsize Hshift.
  set (t := (53 - Pos.size_nat N)%nat).
  set (j := (Pos.size_nat N + k - 53)%nat).
  assert (Hk : k = (t + j)%nat) by lia.
  unfold binary_round_aux, shr_fexp. simpl shr_record_of_loc.
  unfold Zdigits2 at 1. rewrite digits2_size, size_shifted.
  assert (Hpos : (1 <= Pos.size_nat N)%nat) by (destruct N; simpl; lia).
  rewrite fexp_normal by lia.
  replace (Z.of_nat (Pos.size_nat N + k) + - Z.of_nat k - 53 - - Z.of_nat k)
    with (Z.of_nat j) by lia.
  rewrite Hk at 1. rewrite <- shifted_add, shr_by.
  cbn [shr_m loc_of_shr_record round_nearest_even shr_record_of_loc].
  unfold Zdigits2. rewrite digits2_size, size_shifted, fexp_normal by lia.
  replace (Z.of_nat (Pos.size_nat N + t) + (- Z.of_nat k + Z.of_nat j) - 53
           - (- Z.of_nat k + Z.of_nat j)) with 0 by lia.
  cbn [shr shr_m].
  unfold canonical. fold t.
  replace (- Z.of_nat k + Z.of_nat j) with (Z.of_nat (Pos.size_nat N) - 53) by lia.
  destruct (Z.leb_spec (Z.of_nat (Pos.size_nat N) - 53) (1024 - 53)); [done | lia].
Qed.

Lemma size_nat_pos (N : positive) : (1 ≤ Pos.size_nat N)%nat.
Proof. destruct N; simpl; lia. Qed.

Lemma size_nat_bounds (p : positive) :
  2 ^ (Z.of_nat (Pos.size_nat p) - 1) ≤ Z.pos p < 2 ^ Z.of_nat (Pos.size_nat p).
Proof.
  induction p as [p IH|p IH|].
  - simpl Pos.size_nat. rewrite Nat2Z.inj_succ, Z.pow_succ_r by lia.
    replace (Z.succ (Z.of_nat (Pos.size_nat p)) - 1)
      with (Z.succ (Z.of_nat (Pos.size_nat p) - 1)) by lia.
    pose proof (size_nat_pos p).
    rewrite Z.pow_succ_r by lia. lia.
  - simpl Pos.size_nat. rewrite Nat2Z.inj_succ, Z.pow_succ_r by lia.
    replace (Z.succ (Z.of_nat (Pos.size_nat p)) - 1)
      with (Z.succ (Z.of_nat (Pos.size_nat p) - 1)) by lia.
    pose proof (size_nat_pos p).
    rewrite Z.pow_succ_r by lia. lia.
  - simpl. lia.
Qed.

Lemma size_nat_le (p : positive) (k : nat) :
  Z.pos p < 2 ^ Z.of_nat k → (Pos.size_nat p ≤ k)%nat.
Proof.
  intros Hp. pose proof (size_nat_bounds p) as [Hlo _]. pose proof (size_nat_pos p).
  assert (2 ^ (Z.of_nat (Pos.size_nat p) - 1) < 2 ^ Z.of_nat k) as Hlt by lia.
  apply Z.pow_lt_mono_r_iff in Hlt; lia.
Qed.

Lemma size_nat_mul (a b : positive) :
  (Pos.size_nat a + Pos.size_nat b ≤ Pos.size_nat (a * b) + 1)%nat.
Proof.
  pose proof (size_nat_bounds a) as [Ha _]. pose proof (size_nat_bounds b) as [Hb _].
  pose proof (size_nat_bounds (a * b)) as [_ Hab].
  pose proof (size_nat_pos a). pose proof (size_nat_pos b).
  assert (2 ^ (Z.of_nat (Pos.size_nat a) - 1 + (Z.of_nat (Pos.size_nat b) - 1))
          < 2 ^ Z.of_nat (Pos.size_nat (a * b))) as Hlt.
  { rewrite Z.pow_add_r by lia. rewrite Pos2Z.inj_mul in Hab. nia. }
  apply Z.pow_lt_mono_r_iff in Hlt; lia.
Qed.

Lemma shifted_inj_value (m N : positive) (k : nat) :
  Z.pos m = Z.pos N * 2 ^ Z.of_nat k → m = shifted N k.
Proof. intros H. apply Pos2Z.inj. by rewrite shifted_value. Qed.

Lemma pos_iter_shifted (m d : positive) :
  Pos.iter xO m d = shifted m (Pos.to_nat d).
Proof. by rewrite Pos2Nat.inj_iter. Qed.

Lemma round_exact (s : bool) (N : positive) (k : nat) :
  (Pos.size_nat N ≤ 53)%nat →
  binary_round 53 1024 s (shifted N k) (- Z.of_nat k) = canonical s N.
Proof.
  intros Hsize. pose proof (size_nat_pos N).
  unfold binary_round. rewrite digits2_size, size_shifted, fexp_normal by lia.
  unfold shl_align.
  destruct (Z.of_nat (Pos.size_nat N + k) + - Z.of_nat k - 53 - - Z.of_nat k)
    as [|p|d] eqn:E.
  - apply round_aux_exact; lia.
  - apply round_aux_exact; lia.
  - rewrite pos_iter_shifted, shifted_add.
    replace (Z.of_nat (Pos.size_nat N + k) + - Z.of_nat k - 53)
      with (- Z.of_nat (k + Pos.to_nat d)) by lia.
    apply round_aux_exact; lia.
Qed.

Lemma binary64_of_Z_pos (N : positive) :
  Z.pos N < 2 ^ 53 → binary64_of_Z (Z.pos N) = canonical false N.
Proof.
  intros HN. unfold binary64_of_Z, binary_normalize.
  apply (round_exact false N 0). by apply size_nat_le.
Qed.

Lemma binary64_of_Z_neg (N : positive) :
  Z.pos N < 2 ^ 53 → binary64_of_Z (Z.neg N) = canonical true N.
Proof.
  intros HN. unfold binary64_of_Z, binary_normalize.
  apply (round_exact true N 0). by apply size_nat_le.
Qed.

Lemma canonical_unfold (s : bool) (N : positive) :
  (Pos.size_nat N ≤ 53)%nat →
  canonical s N
  = S754_finite s (shifted N (53 - Pos.size_nat N))
      (- Z.of_nat (53 - Pos.size_nat N)).
Proof. intros H. unfold canonical. f_equal. lia. Qed.

Lemma normalize_exact (z : Z) (T : nat) :
  Z.abs z < 2 ^ 53 →
  binary_normalize 53 1024 (z * 2 ^ Z.of_nat T) (- Z.of_nat T) false
  = binary64_of_Z z.
Proof.
  intros Hz. assert (0 < 2 ^ Z.of_nat T) as Hpow by (apply Z.pow_pos_nonneg; lia).
  destruct z as [|N|N].
  - done.
  - rewrite binary64_of_Z_pos by lia.
    destruct (Z.pos N * 2 ^ Z.of_nat T) as [|m|m] eqn:E; try lia.
    unfold binary_normalize. rewrite (shifted_inj_value m N T) by done.
    apply round_exact. apply size_nat_le. lia.
  - rewrite binary64_of_Z_neg by lia.
    destruct (Z.neg N * 2 ^ Z.of_nat T) as [|m|m] eqn:E; try lia.
    unfold binary_normalize. rewrite (shifted_inj_value m N T) by lia.
    apply round_exact. apply size_nat_le. lia.
Qed.

Lemma fst_shl_align (N : positive) (t T : nat) :
  (t ≤ T)%nat →
  fst (shl_align (shifted N t) (- Z.of_nat t) (- Z.of_nat T)) = shifted N T.
Proof.
  intros Hle. unfold shl_align.
  destruct (- Z.of_nat T - - Z.of_nat t) as [|p|d] eqn:E; simpl.
  - f_equal. lia.
  - lia.
  - rewrite pos_iter_shifted, shifted_add. f_equal. lia.
Qed.

Lemma add_canonical (sx sy : bool) (A B : positive) :
  Z.pos A < 2 ^ 53 → Z.pos B < 2 ^ 53 →
  Z.abs (cond_Zopp sx (Z.pos A) + cond_Zopp sy (Z.pos B)) < 2 ^ 53 →
  binary64_add (canonical sx A) (canonical sy B)
  = binary64_of_Z (cond_Zopp sx (Z.pos A) + cond_Zopp sy (Z.pos B)).
Proof.
  intros HA HB Hsum.
  pose proof (size_nat_le A 53 HA) as HsA. pose proof (size_nat_le B 53 HB) as HsB.
  rewrite !canonical_unfold by done.
  set (tA := (53 - Pos.size_nat A)%nat). set (tB := (53 - Pos.size_nat B)%nat).
  unfold binary64_add, SFadd.
  replace (Z.min (- Z.of_nat tA) (- Z.of_nat tB))
    with (- Z.of_nat (Nat.max tA tB)) by lia.
  rewrite !fst_shl_align by lia.
  rewrite <- (normalize_exact _ (Nat.max tA tB)) by done.
  f_equal. rewrite !shifted_value. destruct sx, sy; simpl cond_Zopp; lia.
Qed.

Lemma mul_canonical (sx sy : bool) (A B : positive) :
  Z.pos A * Z.pos B < 2 ^ 53 →
  binary64_mul (canonical sx A) (canonical sy B) = canonical (xorb sx sy) (A * B).
Proof.
  intros HAB.
  assert (HA : Z.pos A < 2 ^ 53) by nia. assert (HB : Z.pos B < 2 ^ 53) by nia.
  pose proof (size_nat_le A 53 HA) as HsA. pose proof (size_nat_le B 53 HB) as HsB.
  assert (HsAB : (Pos.size_nat (A * B) ≤ 53)%nat)
    by (apply size_nat_le; by rewrite Pos2Z.inj_mul).
  pose proof (size_nat_mul A B).
  rewrite (canonical_unfold sx A), (canonical_unfold sy B) by done.
  set (tA := (53 - Pos.size_nat A)%nat). set (tB := (53 - Pos.size_nat B)%nat).
  unfold binary64_mul, SFmul.
  rewrite (shifted_inj_value (shifted A tA * shifted B tB) (A * B) (tA + tB)).
  2: { rewrite !Pos2Z.inj_mul, !shifted_value, Nat2Z.inj_add, Z.pow_add_r by lia. lia. }
  replace (- Z.of_nat tA + - Z.of_nat tB) with (- Z.of_nat (tA + tB)) by lia.
  apply round_aux_exact; lia.
Qed.

Lemma binary64_of_Z_canonical (s : bool) (N : positive) :
  Z.pos N < 2 ^ 53 → canonical s N = binary64_of_Z (cond_Zopp s (Z.pos N)).
Proof.
  intros HN. destruct s.
  - exact (eq_sym (binary64_of_Z_neg N HN)).
  - exact (eq_sym (binary64_of_Z_pos N HN)).
Qed.

Lemma binary64_add_zero (h : Z) (s : bool) :
  Z.abs h < 2 ^ 53 → binary64_add (binary64_of_Z h) (S754_zero s) = binary64_of_Z h.
Proof.
  intros Hh. destruct h as [|N|N].
  - by destruct s.
  - rewrite binary64_of_Z_pos by lia. done.
  - rewrite binary64_of_Z_neg by lia. done.
Qed.

Lemma binary64_add_exact (a b : Z) :
  Z.abs a < 2 ^ 53 → Z.abs b < 2 ^ 53 → Z.abs (a + b) < 2 ^ 53 →
  binary64_add (binary64_of_Z a) (binary64_of_Z b) = binary64_of_Z (a + b).
Proof.
  intros Ha Hb Hab.
  destruct b as [|B|B].
  - rewrite Z.add_0_r. by apply (binary64_add_zero a false).
  - destruct a as [|A|A].
    + rewrite Z.add_0_l, binary64_of_Z_pos by lia. done.
    + rewrite !binary64_of_Z_pos by lia.
      by apply (add_canonical false false A B); try lia.
    + rewrite binary64_of_Z_pos, binary64_of_Z_neg by lia.
      by apply (add_canonical true false A B); try lia.
  - destruct a as [|A|A].
    + rewrite Z.add_0_l, binary64_of_Z_neg by lia. done.
    + rewrite binary64_of_Z_pos, binary64_of_Z_neg by lia.
      by apply (add_canonical false true A B); try lia.
    + rewrite !binary64_of_Z_neg by lia.
      by apply (add_canonical true true A B); try lia.
Qed.

Lemma binary64_mul_exact (c s : Z) :
  Z.abs c < 2 ^ 53 → Z.abs s < 2 ^ 53 → Z.abs (c * s) < 2 ^ 53 →
  binary64_mul (binary64_of_Z c) (binary64_of_Z s) = binary64_of_Z (c * s)
  ∨ (c * s = 0 ∧ binary64_mul (binary64_of_Z c) (binary64_of_Z s) = S754_zero true).
Proof.
  intros Hc Hs Hcs.
  destruct c as [|C|C], s as [|S|S];
    rewrite ?binary64_of_Z_pos, ?binary64_of_Z_neg by lia;
    try (by left); try (by right).
  - left. rewrite mul_canonical by lia. by rewrite binary64_of_Z_canonical by lia.
  - left. rewrite mul_canonical by lia. by rewrite binary64_of_Z_canonical by lia.
  - left. rewrite mul_canonical by lia. by rewrite binary64_of_Z_canonical by lia.
  - left. rewrite mul_canonical by lia. by rewrite binary64_of_Z_canonical by lia.
Qed.

Lemma binary64_step_exact (h c s : Z) :
  Z.abs h < 2 ^ 53 → Z.abs c < 2 ^ 53 → Z.abs s < 2 ^ 53 →
  Z.abs (c * s) < 2 ^ 53 → Z.abs (h + c * s) < 2 ^ 53 →
  binary64_add (binary64_of_Z h) (binary64_mul (binary64_of_Z c) (binary64_of_Z s))
  = binary64_of_Z (h + c * s).
Proof.
  intros Hh Hc Hs Hcs Hsum.
  destruct (binary64_mul_exact c s Hc Hs Hcs) as [->|[Hzero ->]].
  - by apply binary64_add_exact.
  - rewrite Hzero, Z.add_0_r. by apply binary64_add_zero.
Qed.

Lemma shifted_size_inj (A B : positive) :
  Pos.size_nat A = Pos.size_nat B →
  shifted A (53 - Pos.size_nat A) = shifted B (53 - Pos.size_nat B) → A = B.
Proof.
  intros Hsize Heq. rewrite Hsize in Heq.
  apply (f_equal Z.pos) in Heq. rewrite !shifted_value in Heq.
  assert (0 < 2 ^ Z.of_nat (53 - Pos.size_nat B)) by (apply Z.pow_pos_nonneg; lia).
  nia.
Qed.

Lemma canonical_inj (s s' : bool) (A B : positive) :
  canonical s A = canonical s' B → s = s' ∧ A = B.
Proof.
  unfold canonical. intros [= Hs Hm He]. split; [done|].
  apply shifted_size_inj; [lia | done].
Qed.

Lemma binary64_of_Z_inj (a b : Z) :
  Z.abs a < 2 ^ 53 → Z.abs b < 2 ^ 53 →
  binary64_of_Z a = binary64_of_Z b → a = b.
Proof.
  intros Ha Hb.
  destruct a as [|A|A], b as [|B|B];
    rewrite ?binary64_of_Z_pos, ?binary64_of_Z_neg by lia;
    try done; try (intros H; by apply canonical_inj in H as [? ?]).
  - intros H. apply canonical_inj in H as [_ ->]. done.
  - intros H. apply canonical_inj in H as [_ ->]. done.
Qed.

Lemma binary64_to_Z_canonical (s : bool) (N : positive) :
  Z.pos N < 2 ^ 53 → binary64_to_Z (canonical s N) = Some (cond_Zopp s (Z.pos N)).
Proof.
  intros HN. pose proof (size_nat_le N 53 HN) as Hsize.
  pose proof (size_nat_pos N) as Hpos.
  rewrite canonical_unfold by done.
  set (t := (53 - Pos.size_nat N)%nat).
  unfold binary64_to_Z. rewrite shifted_value.
  destruct (0 <=? - Z.of_nat t) eqn:E.
  - apply Z.leb_le in E. assert (t = 0%nat) as -> by lia.
    simpl. do 2 f_equal. lia.
  - rewrite Z.opp_involutive.
    assert (0 < 2 ^ Z.of_nat t) by (apply Z.pow_pos_nonneg; lia).
    rewrite Z.mod_mul by lia. simpl. rewrite Z.div_mul by lia. done.
Qed.

Lemma binary64_to_Z_of_Z (z : Z) :
  safe_integer z → binary64_to_Z (binary64_of_Z z) = Some z.
Proof.
  unfold safe_integer. intros Hz. destruct z as [|N|N].
  - done.
  - rewrite binary64_of_Z_pos by lia. by rewrite binary64_to_Z_canonical by lia.
  - rewrite binary64_of_Z_neg by lia. by rewrite binary64_to_Z_canonical by lia.
Qed.

(** ** The checksum in the arithmetic of the source *)

Lemma getHash_loop_binary64_from (rest : string) :
  ∀ pre specificity hc,
    getHash_loop_binary64 (pre +:+ rest) specificity
      (String.length rest) (String.length pre) hc
    = foldl (λ hc c,
               binary64_add hc
                 (binary64_mul (binary64_of_Z (Z.of_N (N_of_ascii c))) specificity))
        hc (list_ascii_of_string rest).
Proof.
  induction rest as [|c rest IH]; intros pre specificity hc; simpl; [done|].
  rewrite charCodeAt_after_prefix.
  rewrite <- (append_snoc pre c rest), <- (length_snoc pre c).
  by rewrite IH.
Qed.

Lemma weighted_sum_nonneg (codes : list ascii) :
  0 ≤ foldr (λ c sum, Z.of_N (N_of_ascii c) * 1 + sum) 0 codes.
Proof. pose proof (weighted_sum_bounded codes 1). lia. Qed.

(** As long as the magnitude of the running sum and of what is still to
    be added stays below 2^53, the doubles of the loop are the integers
    of the sum. *)
Lemma binary64_sum_exact (s : Z) (codes : list ascii) :
  safe_integer s →
  ∀ hc,
    Z.abs hc + Z.abs s * foldr (λ c sum, Z.of_N (N_of_ascii c) * 1 + sum) 0 codes
    < 2 ^ 53 →
    foldl (λ hc c,
             binary64_add hc
               (binary64_mul (binary64_of_Z (Z.of_N (N_of_ascii c)))
                  (binary64_of_Z s)))
      (binary64_of_Z hc) codes
    = binary64_of_Z
        (hc + foldr (λ c sum, Z.of_N (N_of_ascii c) * s + sum) 0 codes).
Proof.
  unfold safe_integer. intros Hs.
  induction codes as [|c codes IH]; intros hc Hbound; simpl.
  - by rewrite Z.add_0_r.
  - simpl in Hbound.
    pose proof (weighted_sum_nonneg codes) as Hrest.
    pose proof (N_ascii_bounded c) as Hc.
    pose proof (Z.abs_nonneg s) as Hs0. pose proof (Z.abs_nonneg hc) as Hhc0.
    set (code := Z.of_N (N_of_ascii c)) in *.
    assert (Hcode : 0 ≤ code < 256) by (unfold code; lia).
    assert (Hprod : Z.abs (code * s) = code * Z.abs s)
      by (rewrite Z.abs_mul, (Z.abs_eq code); lia).
    pose proof (Z.abs_triangle hc (code * s)) as Htri.
    rewrite binary64_step_exact; try nia.
    rewrite IH by nia. f_equal. lia.
Qed.

Section Exactness.

Variable JSON_stringify : value → completion (option string).

Lemma getHash_binary64_unserialised (obj : value) (specificity : option binary64) :
  (∀ json, JSON_stringify obj ≠ Normal (Some json)) →
  getHash_binary64 JSON_stringify obj specificity = binary64_of_Z 0.
Proof.
  intros H. unfold getHash_binary64.
  destruct (JSON_stringify obj) as [[json|]|e]; simpl; try done.
  by destruct (H json).
Qed.

Lemma getHash_binary64_same_text (a b : value) (specificity : option binary64) :
  JSON_stringify a = JSON_stringify b →
  getHash_binary64 JSON_stringify a specificity
  = getHash_binary64 JSON_stringify b specificity.
Proof. intros H. unfold getHash_binary64. by rewrite H. Qed.

(** Where nothing is rounded, the double that [getHash] returns is the
    sum over the integers. *)
Lemma getHash_binary64_of_Z (obj : value) (specificity : option Z) :
  exactly_summed (JSON_stringify obj) (default 7 specificity) →
  getHash_binary64 JSON_stringify obj (binary64_of_Z <$> specificity)
  = binary64_of_Z (getHash JSON_stringify obj specificity).
Proof.
  intros [Hs Hsum]. rewrite getHash_checksum. unfold getHash_binary64.
  assert (Hdefault : default (binary64_of_Z 7) (binary64_of_Z <$> specificity)
                     = binary64_of_Z (default 7 specificity))
    by by destruct specificity.
  rewrite Hdefault.
  destruct (JSON_stringify obj) as [[json|]|e]; simpl; try done.
  simpl in Hsum. unfold safe_integer in Hsum.
  rewrite (getHash_loop_binary64_from (replace_punctuation json) EmptyString).
  rewrite replace_punctuation_filter.
  unfold checksum in *. rewrite weighted_sum_linear in Hsum.
  pose proof (weighted_sum_nonneg
                (filter (λ c, c ∉ stripped) (list_ascii_of_string json))) as H0.
  rewrite Z.abs_mul, (Z.abs_eq (foldr _ _ _)) in Hsum by done.
  change (S754_zero false) with (binary64_of_Z 0).
  by rewrite binary64_sum_exact.
Qed.

(** The sum over the integers is read back from that double. *)
Lemma getHash_binary64_to_Z (obj : value) (specificity : option Z) :
  exactly_summed (JSON_stringify obj) (default 7 specificity) →
  binary64_to_Z (getHash_binary64 JSON_stringify obj (binary64_of_Z <$> specificity))
  = Some (checksum_of (JSON_stringify obj) (default 7 specificity)).
Proof.
  intros Hexact. rewrite getHash_binary64_of_Z by done.
  rewrite getHash_checksum. apply binary64_to_Z_of_Z. apply Hexact.
Qed.

(** A text with an exact sum at a specificity other than 0 has an exact
    sum at 1. *)
Lemma exactly_summed_one (serialised : completion (option string)) (s : Z) :
  s ≠ 0 → exactly_summed serialised s → exactly_summed serialised 1.
Proof.
  unfold exactly_summed, safe_integer. intros Hs [_ Hsum].
  rewrite checksum_of_linear in Hsum. rewrite Z.abs_mul in Hsum.
  split; [done|]. nia.
Qed.

End Exactness.

(** ** Objects *)

Lemma get_prop_set_prop (k k' : string) (v : value) (ps : list (string * value)) :
  get_prop k (set_prop k' v ps) = if decide (k = k') then Some v else get_prop k ps.
Proof.
  induction ps as [|[k0 v0] ps IH]; simpl.
  - by destruct (decide (k = k')).
  - destruct (decide (k' = k0)) as [->|Hne]; simpl.
    + by destruct (decide (k = k0)).
    + destruct (comes_before k' k0); simpl.
      * by destruct (decide (k = k')).
      * rewrite IH. destruct (decide (k = k0)) as [->|]; [|done].
        by rewrite decide_False.
Qed.

Lemma get_prop_app (k : string) (l1 l2 : list (string * value)) :
  get_prop k (l1 ++ l2)
  = match get_prop k l1 with Some v => Some v | None => get_prop k l2 end.
Proof.
  induction l1 as [|[k0 v0] l1 IH]; simpl; [done|].
  by destruct (decide (k = k0)).
Qed.

Lemma get_prop_absent (k : string) (l : list (string * value)) :
  k ∉ l.*1 → get_prop k l = None.
Proof.
  induction l as [|[k0 v0] l IH]; simpl; [done|].
  intros Hk. apply not_elem_of_cons in Hk as [Hne Hk].
  rewrite decide_False by done. by apply IH.
Qed.

Lemma get_prop_reverse (k : string) (l : list (string * value)) :
  NoDup l.*1 → get_prop k (reverse l) = get_prop k l.
Proof.
  induction l as [|[k0 v0] l IH]; simpl; [done|].
  intros Hnd. apply NoDup_cons in Hnd as [Hk0 Hnd].
  rewrite reverse_cons, get_prop_app, IH by done. simpl.
  destruct (decide (k = k0)) as [->|].
  - by rewrite get_prop_absent.
  - by destruct (get_prop k l).
Qed.

(** After an assignment a key has the value of its last binding in the
    source, and the value it had in the target when the source does
    not bind it. *)
Lemma get_prop_assign (k : string) (source : list (string * value)) :
  ∀ target,
    get_prop k (assign target source)
    = match get_prop k (reverse source) with
      | Some v => Some v
      | None => get_prop k target
      end.
Proof.
  induction source as [|[k0 v0] source IH]; intros target; [done|].
  change (assign target ((k0, v0) :: source))
    with (assign (set_prop k0 v0 target) source).
  rewrite IH, reverse_cons, get_prop_app, get_prop_set_prop. simpl.
  destruct (get_prop k (reverse source)); [done|].
  by destruct (decide (k = k0)).
Qed.

Lemma get_prop_spread (k : string) (a b : value) :
  well_formed a → well_formed b →
  get_prop k (own_props (spread a b))
  = match get_prop k (own_props b) with
    | Some v => Some v
    | None => get_prop k (own_props a)
    end.
Proof.
  intros Ha Hb. unfold spread. simpl.
  rewrite !get_prop_assign, !get_prop_reverse by done. simpl.
  by destruct (get_prop k (own_props b)), (get_prop k (own_props a)).
Qed.

Lemma get_prop_omit (k : string) (object : value) (ignored : list string) :
  get_prop k (own_props (omit object ignored))
  = if decide (k ∈ ignored) then None else get_prop k (own_props object).
Proof.
  unfold omit. simpl.
  induction (own_props object) as [|[k0 v0] ps IH]; simpl.
  - by destruct (decide (k ∈ ignored)).
  - destruct (decide (k0 ∈ ignored)) as [Hin|Hout].
    + rewrite filter_cons_False by (simpl; tauto).
      rewrite IH. destruct (decide (k ∈ ignored)); [done|].
      rewrite decide_False; [done | by intros ->].
    + rewrite filter_cons_True by done. simpl. rewrite IH.
      destruct (decide (k = k0)) as [->|]; [|done].
      by rewrite decide_False.
Qed.

(** ** The world *)

Lemma with_store_same (w : World) : with_store (store w) w = w.
Proof. by destruct w. Qed.

(** ** Pruning *)

Lemma substring_prefix (p rest : string) :
  String.substring 0 (String.length p) (p +:+ rest) = p.
Proof.
  induction p as [|a p IH].
  - by destruct rest.
  - rewrite append_cons. simpl. by rewrite IH.
Qed.



Lemma superseded_written (keyName name : string) :
  superseded keyName name name = false.
Proof.
  unfold superseded. rewrite (bool_decide_eq_true_2 (name = name)) by done.
  by rewrite andb_false_r.
Qed.

Lemma prune_lookup (keyName name : string) (keys : list string) :
  ∀ (st : gmap string string) (k : string),
    prune keyName name keys st !! k
    = if decide (k ∈ keys ∧ superseded keyName name k = true)
      then None else st !! k.
Proof.
  induction keys as [|key keys IH]; intros st k.
  - change (prune keyName name [] st) with st.
    case_decide as H; [|done]. destruct H as [H _]. by apply elem_of_nil in H.
  - change (prune keyName name (key :: keys) st)
      with (prune keyName name keys
              (if superseded keyName name key then delete key st else st)).
    rewrite IH.
    destruct (decide (k ∈ keys ∧ superseded keyName name k = true))
      as [[Hin Hs]|Hn];
    destruct (decide (k ∈ key :: keys ∧ superseded keyName name k = true))
      as [[Hin' Hs']|Hn']; try done.
    + destruct Hn'. split; [by apply list_elem_of_further | done].
    + apply elem_of_cons in Hin' as [->|Hin']; [|by destruct Hn].
      rewrite Hs'. apply lookup_delete_eq.
    + destruct (superseded keyName name key) eqn:Hs; [|done].
      apply lookup_delete_ne. intros ->. apply Hn'.
      split; [apply list_elem_of_here | done].
Qed.

(** ** The engine *)

Section Engine.

Variable JSON_stringify : value → completion (option string).
Variable JSON_parse : string → completion value.

(** *** The write path on Web Storage *)

Lemma forEach_prune (quota : nat) (keyName name : string) (keys : list string) :
  ∀ w,
    forEach keys
      (λ key, if superseded keyName name key
              then call_set (removeItem (webStorage quota) key)
              else mret tt) w
    = (Normal tt, with_store (prune keyName name keys (store w)) w).
Proof.
  induction keys as [|key keys IH]; intros w.
  - change (prune keyName name [] (store w)) with (store w).
    by rewrite with_store_same.
  - change (prune keyName name (key :: keys) (store w))
      with (prune keyName name keys
              (if superseded keyName name key
               then delete key (store w) else store w)).
    simpl forEach. unfold mbind, M_bind.
    destruct (superseded keyName name key).
    + unfold call_set. simpl. by rewrite IH.
    + unfold mret, M_ret. by rewrite IH.
Qed.

Lemma handlePersistValues_web
  (quota : nat) (name keyName : string) (v : value) (w : World) :
  handlePersistValues JSON_stringify (Some (webStorage quota)) name keyName v w
  = match JSON_stringify v with
    | Normal json =>
        let st := <[name := DOMString json]> (store w) in
        if decide (store w !! name = Some (DOMString json)
                   ∨ (store_size st ≤ quota)%nat)
        then (Normal tt,
              with_store (prune keyName name (map_to_list st).*1 st) w)
        else (Throw (DOMException "QuotaExceededError"), w)
    | Throw e => (Throw e, w)
    end.
Proof.
  unfold handlePersistValues, mbind, M_bind, lift.
  destruct (JSON_stringify v) as [json|e]; [|done].
  unfold call_set at 1. simpl.
  destruct (decide (store w !! name = Some (DOMString json))) as [Hsame|Hnew];
    simpl.
  { rewrite decide_True by by left.
    rewrite (insert_id _ _ _ Hsame), with_store_same.
    unfold Object_keys. simpl.
    exact (forEach_prune quota keyName name _ _). }
  destruct (decide (store_size (<[name:=DOMString json]> (store w)) ≤ quota)%nat);
    simpl.
  - rewrite decide_True by by right.
    unfold Object_keys. simpl.
    exact (forEach_prune quota keyName name _ _).
  - rewrite decide_False by (intros [?|?]; done).
    by rewrite with_store_same.
Qed.

Lemma not_listed_absent (st : gmap string string) (k : string) :
  k ∉ (map_to_list st).*1 → st !! k = None.
Proof.
  intros Hk. destruct (st !! k) as [x|] eqn:E; [|done].
  destruct Hk. apply list_elem_of_fmap. exists (k, x).
  split; [done | by apply elem_of_map_to_list].
Qed.

(** After the pruning a superseded key is gone and every other key has
    what it had. *)
Lemma pruned_lookup (keyName name : string) (st : gmap string string) (k : string) :
  prune keyName name (map_to_list st).*1 st !! k
  = if superseded keyName name k then None else st !! k.
Proof.
  rewrite prune_lookup.
  destruct (decide (k ∈ (map_to_list st).*1 ∧ superseded keyName name k = true))
    as [[_ ->]|Hn]; [done|].
  destruct (superseded keyName name k) eqn:Hs; [|done].
  apply not_listed_absent. intros Hin. by apply Hn.
Qed.

(** *** The read path *)

Lemma usePersistedString_state_returned
  (storage : Storage) (name : string) (got : returned) (w : World) :
  getItem storage name (store w) = Normal got →
  usePersistedString_state (Some storage) name w
  = (Normal IUndefined,
     match Promise_resolve got with
     | Pending => with_cells (cells w ++ [IUndefined]) w
     | p =>
         with_jobs (jobs w ++ [Reaction p (length (cells w))])
           (with_cells (cells w ++ [IUndefined]) w)
     end).
Proof.
  intros Hget.
  unfold usePersistedString_state, mbind, M_bind, declare, call_get.
  simpl. rewrite Hget.
  destruct (Promise_resolve got); simpl; unfold read; simpl;
    by rewrite list_lookup_middle.
Qed.

Lemma usePersistedString_state_thrown
  (storage : Storage) (name : string) (e : exn) (w : World) :
  getItem storage name (store w) = Throw e →
  (usePersistedString_state (Some storage) name w).1 = Throw e.
Proof.
  intros Hget.
  unfold usePersistedString_state, mbind, M_bind, declare, call_get.
  simpl. by rewrite Hget.
Qed.

(** Whatever the store answers, synchronously or through a promise,
    the memoised state is [undefined]. *)
Lemma usePersistedString_state_undefined
  (storage : Storage) (name : string) (got : returned) (w : World) :
  getItem storage name (store w) = Normal got →
  (usePersistedString_state (Some storage) name w).1 = Normal IUndefined.
Proof.
  intros Hget. by rewrite (usePersistedString_state_returned _ _ got).
Qed.

(** *** The effect *)

Lemma restore_absent (persistedString : item) (initialValues : value)
  (stringValues : option string) (w : World) :
  item_truthy persistedString = false →
  restore JSON_stringify JSON_parse persistedString initialValues stringValues w
  = (Normal tt, w).
Proof. intros H. unfold restore. by rewrite H. Qed.

Lemma restore_unparsable (s : string) (e : exn) (initialValues : value)
  (stringValues : option string) (w : World) :
  s ≠ EmptyString →
  JSON_parse s = Throw e →
  restore JSON_stringify JSON_parse (IStr s) initialValues stringValues w
  = (Normal tt,
     with_console
       (console w ++ [("Parse persisted values is not possible", e)]) w).
Proof.
  intros Hs Hparse. unfold restore, item_truthy.
  rewrite bool_decide_eq_false_2 by done. simpl.
  unfold try_catch, mbind, M_bind, lift. simpl. by rewrite Hparse.
Qed.

Lemma restore_parsed (s : string) (persistedValues initialValues : value)
  (json stringValues : option string) (w : World) :
  s ≠ EmptyString →
  JSON_parse s = Normal persistedValues →
  JSON_stringify (spread initialValues persistedValues) = Normal json →
  restore JSON_stringify JSON_parse (IStr s) initialValues stringValues w
  = (Normal tt,
     if bool_decide (stringValues ≠ json)
     then with_values (spread initialValues persistedValues)
            (setValues_calls w ++ [spread initialValues persistedValues]) w
     else w).
Proof.
  intros Hs Hparse Hjson. unfold restore, item_truthy.
  rewrite bool_decide_eq_false_2 by done. simpl.
  unfold try_catch, mbind, M_bind, lift. simpl. rewrite Hparse, Hjson.
  by destruct (bool_decide (stringValues ≠ json)).
Qed.

Lemma apply_persisted_restore (persistedString : item) (initialValues : value)
  (stringValues : option string) (w : World) :
  JSON_stringify (values w) = Normal stringValues →
  apply_persisted JSON_stringify JSON_parse persistedString initialValues w
  = restore JSON_stringify JSON_parse persistedString initialValues stringValues w.
Proof.
  intros Hsv. unfold apply_persisted, get_values, lift, mbind, M_bind.
  by rewrite Hsv.
Qed.

(** A second application of the same payload calls [setValues] no more
    and leaves the values of the form as the first one left them. *)
Lemma apply_persisted_twice (persistedString : item) (initialValues : value) (w : World) :
  let w1 := (apply_persisted JSON_stringify JSON_parse persistedString initialValues w).2 in
  let w2 := (apply_persisted JSON_stringify JSON_parse persistedString initialValues w1).2 in
  values w2 = values w1 ∧ setValues_calls w2 = setValues_calls w1.
Proof.
  unfold apply_persisted, restore, try_catch, get_values, lift, mbind, M_bind.
  simpl.
  destruct (JSON_stringify (values w)) as [sv|e] eqn:Esv; simpl.
  2: { by rewrite Esv. }
  destruct (item_truthy persistedString); simpl.
  2: { by rewrite Esv. }
  destruct (JSON_parse (item_to_string persistedString)) as [pv|e]; simpl.
  2: { by rewrite Esv. }
  destruct (JSON_stringify (spread initialValues pv)) as [json|e] eqn:Ejson; simpl.
  2: { by rewrite Esv. }
  case_bool_decide as Hdiff; simpl.
  - rewrite Ejson. simpl.
    by rewrite bool_decide_eq_false_2 by (intros H; by apply H).
  - rewrite Esv. simpl.
    by rewrite bool_decide_eq_false_2 by (intros H; by apply H).
Qed.

(** *** The gate *)

Lemma handlePersist_gated (props : PersistFormikValuesProps)
  (persistValues : value → M unit) (v : value) (isValid : bool) (w : World) :
  isValid || truthy (persistInvalid props) = false →
  handlePersist props persistValues v isValid w = (Normal tt, w).
Proof. intros H. unfold handlePersist. by rewrite H. Qed.

Lemma handlePersist_open (props : PersistFormikValuesProps)
  (persistValues : value → M unit) (v : value) (isValid : bool) :
  isValid || truthy (persistInvalid props) = true →
  handlePersist props persistValues v isValid = persistValues (snapshot props v).
Proof.
  intros H. unfold handlePersist, snapshot. rewrite H.
  by destruct (ignoreValues props), (parseValues props).
Qed.

Lemma run_events_invalid (props : PersistFormikValuesProps)
  (persistValues : value → M unit) (events : list event) :
  truthy (persistInvalid props) = false →
  all_invalid events →
  ∀ armed w,
    store (run_events props persistValues events false armed w) = store w
    ∧ console (run_events props persistValues events false armed w) = console w.
Proof.
  intros Hopt. induction events as [|ev events IH]; intros Hall armed w; [done|].
  assert (Hrest : all_invalid events).
  { intros v valid Hin. apply (Hall v). by apply list_elem_of_further. }
  destruct ev as [v valid|]; simpl.
  - rewrite (Hall v valid) by apply list_elem_of_here.
    by destruct (IH Hrest true (with_values v (setValues_calls w) w)) as [-> ->].
  - rewrite handlePersist_gated by (by rewrite Hopt).
    destruct armed; apply (IH Hrest).
Qed.

(** *** Mounting *)

Lemma keeps_form_ret {A} (a : A) (P : A → Prop) :
  P a → keeps_form (mret a) P.
Proof. by intros H w. Qed.

Lemma keeps_form_lift {A} (c : completion A) (P : A → Prop) :
  (∀ a, c = Normal a → P a) → keeps_form (lift c) P.
Proof. intros H w. unfold lift. simpl. destruct c; auto. Qed.

Lemma keeps_form_bind {A B} (m : M A) (k : A → M B)
  (P : A → Prop) (Q : B → Prop) :
  keeps_form m P →
  (∀ a, P a → keeps_form (k a) Q) →
  keeps_form (m ≫= k) Q.
Proof.
  intros Hm Hk w. unfold mbind, M_bind.
  destruct (Hm w) as (Hv & Hc & HP).
  destruct (m w) as [[a|e] w1]; simpl in *; [|done].
  destruct (Hk a HP w1) as (Hv' & Hc' & HQ).
  by rewrite Hv', Hc'.
Qed.

Lemma run_job_keeps_form (j : job) : keeps_form (run_job j) (λ _, True).
Proof. by destruct j as [[v|e|] cell]. Qed.

Lemma forEach_keeps_form {A} (l : list A) (f : A → M unit) :
  (∀ x, keeps_form (f x) (λ _, True)) →
  keeps_form (forEach l f) (λ _, True).
Proof.
  intros Hf. induction l as [|x l IH]; simpl.
  - by apply keeps_form_ret.
  - apply keeps_form_bind with (λ _, True); [apply Hf | by intros _ _].
Qed.

Lemma run_jobs_keeps_form : keeps_form run_jobs (λ _, True).
Proof.
  intros w. unfold run_jobs.
  apply (forEach_keeps_form (jobs w) run_job run_job_keeps_form (with_jobs [] w)).
Qed.

(** The memoised state is never truthy. *)
Lemma usePersistedString_state_falsy (storage : option Storage) (name : string) :
  keeps_form (usePersistedString_state storage name)
    (λ state, item_truthy state = false).
Proof.
  intros w. destruct storage as [storage|]; [|done].
  destruct (getItem storage name (store w)) as [got|e] eqn:Hget.
  - rewrite (usePersistedString_state_returned _ _ _ _ Hget).
    by destruct (Promise_resolve got).
  - unfold usePersistedString_state, mbind, M_bind, declare, call_get.
    simpl. by rewrite Hget.
Qed.

Lemma restore_keeps_form (persistedString : item) (initialValues : value)
  (stringValues : option string) :
  item_truthy persistedString = false →
  keeps_form
    (restore JSON_stringify JSON_parse persistedString initialValues stringValues)
    (λ _, True).
Proof. intros H w. by rewrite restore_absent. Qed.

Lemma PersistFormikValuesMemo_keeps_form (props : PersistFormikValuesProps)
  (window : binding) (initialValues : value) (isValid : bool) :
  keeps_form
    (PersistFormikValuesMemo JSON_stringify JSON_parse props window
       initialValues isValid)
    (λ rendered, keeps_form (effect rendered) (λ _, True)).
Proof.
  unfold PersistFormikValuesMemo, usePersistedString, get_values.
  apply keeps_form_bind with (λ _, True); [done|]. intros values _.
  apply keeps_form_bind with (λ hook, item_truthy hook.1 = false).
  - apply keeps_form_bind with (λ _, True); [by apply keeps_form_lift|].
    intros name _.
    apply keeps_form_bind with (λ _, True); [by apply keeps_form_lift|].
    intros storage _.
    eapply keeps_form_bind; [apply usePersistedString_state_falsy|].
    intros state Hstate. by apply keeps_form_ret.
  - intros hook Hhook.
    apply keeps_form_bind with (λ _, True); [by apply keeps_form_lift|].
    intros stringValues _. apply keeps_form_ret. simpl.
    by apply restore_keeps_form.
Qed.

(** A mount never changes the values of the form. *)
Lemma mount_keeps_form (props : PersistFormikValuesProps) (window : binding)
  (initialValues : value) (isValid : bool) :
  keeps_form
    (mount JSON_stringify JSON_parse props window initialValues isValid)
    (λ _, True).
Proof.
  unfold mount.
  eapply keeps_form_bind; [apply PersistFormikValuesMemo_keeps_form|].
  intros rendered Heffect.
  apply keeps_form_bind with (λ _, True); [apply run_jobs_keeps_form|].
  by intros _ _.
Qed.

End Engine.

(** * The component against its description *)

(** ** Restoring *)

(** C1.  When the persisted payload parses, the effect merges it over
    the initial values, the persisted value of a key winning; it calls
    [setValues] with the merged object exactly when the serialised
    merged object differs from the serialised current values; and a
    second application of the same payload calls [setValues] no more
    and leaves the values as they are. *)
Theorem restore_merges_once
  (JSON_stringify : value → completion (option string))
  (JSON_parse : string → completion value)
  (s : string) (initialValues persistedValues : value) (w : World) :
  s ≠ EmptyString →
  JSON_parse s = Normal persistedValues →
  well_formed initialValues →
  well_formed persistedValues →
  let merged := spread initialValues persistedValues in
  let once :=
    (apply_persisted JSON_stringify JSON_parse (IStr s) initialValues w).2 in
  let twice :=
    (apply_persisted JSON_stringify JSON_parse (IStr s) initialValues once).2 in
  (∀ k, get_prop k (own_props merged)
        = match get_prop k (own_props persistedValues) with
          | Some v => Some v
          | None => get_prop k (own_props initialValues)
          end)
  ∧ (∀ current json,
       JSON_stringify (values w) = Normal current →
       JSON_stringify merged = Normal json →
       apply_persisted JSON_stringify JSON_parse (IStr s) initialValues w
       = (Normal tt,
          if bool_decide (current ≠ json)
          then with_values merged (setValues_calls w ++ [merged]) w
          else w))
  ∧ values twice = values once
  ∧ setValues_calls twice = setValues_calls once.
Proof.
  intros Hs Hparse Hinit Hpersisted merged once twice. split_and!.
  - intros k. by apply get_prop_spread.
  - intros current json Hcurrent Hjson.
    rewrite (apply_persisted_restore _ _ _ _ current) by done.
    by apply restore_parsed.
  - apply apply_persisted_twice.
  - apply apply_persisted_twice.
Qed.

Lemma restore_merges_once_witness :
  Examples.a_is 1 ≠ EmptyString
  ∧ Host.JSON_parse (Examples.a_is 1) = Normal Examples.a_is_1
  ∧ well_formed Examples.a_is_0
  ∧ well_formed Examples.a_is_1
  ∧ apply_persisted Host.JSON_stringify Host.JSON_parse
      (IStr (Examples.a_is 1)) Examples.a_is_0 Examples.revisited
    = (Normal tt,
       with_values Examples.a_is_1 [Examples.a_is_1] Examples.revisited)
  ∧ values
      (apply_persisted Host.JSON_stringify Host.JSON_parse
         (IStr (Examples.a_is 1)) Examples.a_is_0
         (with_values Examples.a_is_1 [Examples.a_is_1] Examples.revisited)).2
    = Examples.a_is_1.
Proof.
  assert (H1 : Examples.a_is 1 ≠ EmptyString) by (vm_compute; discriminate).
  assert (H2 : Host.JSON_parse (Examples.a_is 1) = Normal Examples.a_is_1)
    by (vm_compute; reflexivity).
  assert (H3 : well_formed Examples.a_is_0)
    by (unfold well_formed; apply (bool_decide_unpack _); vm_compute; exact I).
  assert (H4 : well_formed Examples.a_is_1)
    by (unfold well_formed; apply (bool_decide_unpack _); vm_compute; exact I).
  pose proof (restore_merges_once Host.JSON_stringify Host.JSON_parse
                (Examples.a_is 1) Examples.a_is_0 Examples.a_is_1
                Examples.revisited H1 H2 H3 H4) as (_ & Hset & Hvalues & _).
  assert (H5 : apply_persisted Host.JSON_stringify Host.JSON_parse
                 (IStr (Examples.a_is 1)) Examples.a_is_0 Examples.revisited
               = (Normal tt,
                  with_values Examples.a_is_1 [Examples.a_is_1] Examples.revisited)).
  { apply (Hset (Some (Examples.a_is 0)) (Some (Examples.a_is 1)));
      vm_compute; reflexivity. }
  rewrite H5 in Hvalues. split_and!; done.
Defined.

(** ** Writing *)




(** C5.  While the form is invalid and [persistInvalid] is not set,
    the callback of the debounce touches nothing, so the store and the
    console are what they were after any sequence of changes and timer
    expirations; and a call of the callback that changes the store was
    made for a valid form or with [persistInvalid] set. *)
Theorem invalid_form_is_not_persisted
  (props : PersistFormikValuesProps) (persistValues : value → M unit) :
  (∀ v isValid w,
     isValid || truthy (persistInvalid props) = false →
     handlePersist props persistValues v isValid w = (Normal tt, w))
  ∧ (truthy (persistInvalid props) = false →
     ∀ events armed w,
       all_invalid events →
       store (run_events props persistValues events false armed w) = store w)
  ∧ (∀ v isValid w,
       store (handlePersist props persistValues v isValid w).2 ≠ store w →
       isValid = true ∨ persistInvalid props = Some true).
Proof.
  split_and!.
  - intros v isValid w. apply handlePersist_gated.
  - intros Hopt events armed w Hall.
    by destruct (run_events_invalid props persistValues events Hopt Hall armed w).
  - intros v isValid w Hchanged.
    destruct (isValid || truthy (persistInvalid props)) eqn:Hgate.
    + apply orb_true_iff in Hgate as [?|Hopt]; [by left | right].
      by destruct (persistInvalid props) as [[]|].
    + by rewrite handlePersist_gated in Hchanged.
Qed.

Lemma invalid_form_is_not_persisted_witness :
  let persistValues :=
    handlePersistValues Host.JSON_stringify (Some (webStorage 5000))
      "form" "form_" in
  let events :=
    [Change Examples.a_is_1 false; Change Examples.credentials false;
     TimerFires; Change Examples.a_is_0 false; TimerFires] in
  truthy (persistInvalid (Examples.props "form")) = false
  ∧ all_invalid events
  ∧ store (run_events (Examples.props "form") persistValues events false true
             Examples.revisited)
    = store Examples.revisited.
Proof.
  intros persistValues events.
  assert (H1 : truthy (persistInvalid (Examples.props "form")) = false)
    by reflexivity.
  assert (H2 : all_invalid events).
  { intros v valid Hin.
    repeat (apply elem_of_cons in Hin as [Hin|Hin];
            [by inversion Hin|]).
    by apply elem_of_nil in Hin. }
  split_and!; [done | done |].
  exact (proj1 (proj2 (invalid_form_is_not_persisted
                         (Examples.props "form") persistValues))
           H1 events true Examples.revisited H2).
Defined.

(** C6.  A write that the gate lets through persists the snapshot made
    from the current values by leaving out the ignored fields, by
    their own name only, and then applying [parseValues], whose result
    may be [undefined]; with [password] ignored, the values
    [{username: a, password: b}] are stored as the text of
    [{username: a}]. *)
Theorem write_pipeline
  (JSON_stringify : value → completion (option string))
  (props : PersistFormikValuesProps) (quota : nat) (name keyName : string)
  (v : value) (isValid : bool) (w : World) (json : option string) :
  let filtered :=
    match ignoreValues props with
    | Some ignored => omit v ignored
    | None => v
    end in
  let persisted :=
    match parseValues props with
    | Some parse => parse filtered
    | None => filtered
    end in
  isValid || truthy (persistInvalid props) = true →
  JSON_stringify persisted = Normal json →
  (store_size (<[name := DOMString json]> (store w)) ≤ quota)%nat →
  (∃ w',
     handlePersist props
       (handlePersistValues JSON_stringify (Some (webStorage quota)) name keyName)
       v isValid w = (Normal tt, w')
     ∧ store w' !! name = Some (DOMString json))
  ∧ (∀ ignored k,
       ignoreValues props = Some ignored →
       get_prop k (own_props filtered)
       = if decide (k ∈ ignored) then None else get_prop k (own_props v))
  ∧ store
      (handlePersist (Examples.ignoring "form" ["password"])
         (handlePersistValues Host.JSON_stringify (Some (webStorage 5000))
            "form" "form_")
         Examples.credentials true (Examples.world ∅ Examples.credentials)).2
    !! "form"
    = Some Examples.username_a.
Proof.
  intros filtered persisted Hgate Hjson Hfits. split_and!.
  - rewrite handlePersist_open by done.
    change (snapshot props v) with persisted.
    rewrite handlePersistValues_web, Hjson. simpl.
    rewrite decide_True by by right.
    eexists. split; [done|]. simpl.
    rewrite pruned_lookup, superseded_written. apply lookup_insert_eq.
  - intros ignored k Hignored. unfold filtered. rewrite Hignored.
    apply get_prop_omit.
  - vm_compute. reflexivity.
Qed.

Lemma write_pipeline_witness :
  let props := Examples.ignoring "form" ["password"] in
  let w := Examples.world ∅ Examples.credentials in
  true || truthy (persistInvalid props) = true
  ∧ Host.JSON_stringify (omit Examples.credentials ["password"])
    = Normal (Some Examples.username_a)
  ∧ (store_size (<["form" := Examples.username_a]> (store w)) ≤ 5000)%nat
  ∧ ∃ w',
      handlePersist props
        (handlePersistValues Host.JSON_stringify (Some (webStorage 5000))
           "form" "form_")
        Examples.credentials true w = (Normal tt, w')
      ∧ store w' !! "form" = Some Examples.username_a.
Proof.
  intros props w.
  assert (H1 : true || truthy (persistInvalid props) = true) by reflexivity.
  assert (H2 : Host.JSON_stringify (omit Examples.credentials ["password"])
               = Normal (Some Examples.username_a))
    by (vm_compute; reflexivity).
  assert (H3 : (store_size (<["form" := Examples.username_a]> (store w)) ≤ 5000)%nat)
    by (vm_compute; lia).
  split_and!; [done | done | done |].
  exact (proj1 (write_pipeline Host.JSON_stringify props 5000 "form" "form_"
                  Examples.credentials true w (Some Examples.username_a)
                  H1 H2 H3)).
Defined.

(** ** Failures *)

(** C7.  A payload in the store that is not JSON never reaches the
    parser.  The string that the hook hands to the effect is falsy
    whatever the store holds, which is the defect of C3, and for a
    falsy string the effect does nothing.  A mount over a store with
    the text [{oops] under the key of the form returns normally, keeps
    the values of the form and reports nothing, although the reaction
    of the read has received the text; the effect, had it been given
    the text, would have reported the error once. *)
Theorem mount_reports_no_corrupt_payload :
  let mounted :=
    mount Host.JSON_stringify Host.JSON_parse (Examples.props "form")
      Examples.browser Examples.a_is_0 true Scenarios.corrupt in
  let given :=
    restore Host.JSON_stringify Host.JSON_parse (IStr "{oops")
      Examples.a_is_0 (Some (Examples.a_is 0)) Scenarios.corrupt in
  (∀ storage name w,
     match (usePersistedString_state storage name w).1 with
     | Normal state => item_truthy state = false
     | Throw _ => True
     end)
  ∧ (∀ JSON_stringify JSON_parse state initialValues stringValues w,
       item_truthy state = false →
       restore JSON_stringify JSON_parse state initialValues stringValues w
       = (Normal tt, w))
  ∧ store Scenarios.corrupt !! "form" = Some "{oops"
  ∧ Host.JSON_parse "{oops" = Throw (SyntaxError "Unexpected token in JSON")
  ∧ mounted.1 = Normal tt
  ∧ console mounted.2 = []
  ∧ values mounted.2 = Examples.a_is_0
  ∧ cells mounted.2 = [IStr "{oops"]
  ∧ given
    = (Normal tt,
       with_console
         [("Parse persisted values is not possible",
           SyntaxError "Unexpected token in JSON")]
         Scenarios.corrupt).
Proof.
  intros mounted given. split_and!.
  - intros storage name w.
    by destruct (usePersistedString_state_falsy storage name w) as (_ & _ & H).
  - intros JSON_stringify JSON_parse state initialValues stringValues w H.
    by apply restore_absent.
  - vm_compute. reflexivity.
  - vm_compute. reflexivity.
  - vm_compute. reflexivity.
  - vm_compute. reflexivity.
  - vm_compute. reflexivity.
  - vm_compute. reflexivity.
  - vm_compute. reflexivity.
Qed.

(** C9, as described, fails on a write: in a store that is within its
    quota, a write of a payload that no longer fits makes [setItem]
    throw; the exception leaves [handlePersistValues] and the callback
    of the debounce, the store is as it was, and nothing is reported. *)
Lemma failed_write_escapes :
  let persistValues :=
    handlePersistValues Host.JSON_stringify (Some (webStorage 20))
      "form" "form_" in
  (store_size (store Examples.revisited) ≤ 20)%nat
  ∧ store Examples.revisited !! "form" = Some (Examples.a_is 1)
  ∧ persistValues Examples.credentials Examples.revisited
    = (Throw (DOMException "QuotaExceededError"), Examples.revisited)
  ∧ handlePersist (Examples.props "form") persistValues
      Examples.credentials true Examples.revisited
    = (Throw (DOMException "QuotaExceededError"), Examples.revisited)
  ∧ console Examples.revisited = [].
Proof. vm_compute. split_and!; (reflexivity || lia). Qed.

(** C9.  When [getItem] returns a promise that rejects, the read
    returns normally with no payload, the rejection is reported to the
    console once, and the store and the form are left as they are. *)
Theorem rejected_read_is_reported
  (storage : Storage) (name : string) (e : exn) (w : World) :
  jobs w = [] →
  getItem storage name (store w) = Normal (Async (Rejected e)) →
  ∃ w',
    read_path (Some storage) name w = (Normal IUndefined, w')
    ∧ console w' = console w ++ [("ERROR GETTING ITEM ", e)]
    ∧ store w' = store w
    ∧ values w' = values w
    ∧ setValues_calls w' = setValues_calls w
    ∧ jobs w' = [].
Proof.
  intros Hjobs Hget. unfold read_path, mbind, M_bind.
  rewrite (usePersistedString_state_returned _ _ _ _ Hget). simpl.
  unfold run_jobs. simpl. rewrite Hjobs. simpl.
  unfold mbind, M_bind, console_error. simpl.
  eexists. split; [done|]. done.
Qed.

Lemma rejected_read_is_reported_witness :
  jobs Examples.revisited = []
  ∧ getItem (Examples.rejecting (Thrown "offline")) "form"
      (store Examples.revisited)
    = Normal (Async (Rejected (Thrown "offline")))
  ∧ ∃ w',
      read_path (Some (Examples.rejecting (Thrown "offline"))) "form"
        Examples.revisited
      = (Normal IUndefined, w')
      ∧ console w'
        = console Examples.revisited
          ++ [("ERROR GETTING ITEM ", Thrown "offline")]
      ∧ store w' = store Examples.revisited
      ∧ values w' = values Examples.revisited
      ∧ setValues_calls w' = setValues_calls Examples.revisited
      ∧ jobs w' = [].
Proof.
  assert (H1 : jobs Examples.revisited = []) by reflexivity.
  assert (H2 : getItem (Examples.rejecting (Thrown "offline")) "form"
                 (store Examples.revisited)
               = Normal (Async (Rejected (Thrown "offline"))))
    by reflexivity.
  split_and!; [done | done |].
  exact (rejected_read_is_reported (Examples.rejecting (Thrown "offline"))
           "form" (Thrown "offline") Examples.revisited H1 H2).
Defined.

(** C3.  The memoised state is read before the reaction of the
    promise has run: it is [undefined] whatever the store answers,
    synchronously or with a promise, so a mount never sets the values
    of the form.  With a payload stored under the key of the form, the
    values stay as they were for a store of either kind; the reaction
    does receive the payload, and the effect, applied to it, would
    have set the values. *)
Theorem mount_discards_stored_payload :
  let synchronous :=
    mount Host.JSON_stringify Host.JSON_parse (Examples.props "form")
      Examples.browser Examples.a_is_0 true Examples.revisited in
  let asynchronous :=
    mount Host.JSON_stringify Host.JSON_parse
      (Examples.custom "form" Examples.asynchronous)
      Examples.browser Examples.a_is_0 true Examples.revisited in
  (∀ storage name w,
     (usePersistedString_state (Some storage) name w).1
     = match getItem storage name (store w) with
       | Normal _ => Normal IUndefined
       | Throw e => Throw e
       end)
  ∧ (∀ JSON_stringify JSON_parse props window initialValues isValid w,
       let mounted :=
         (mount JSON_stringify JSON_parse props window initialValues isValid w).2 in
       values mounted = values w
       ∧ setValues_calls mounted = setValues_calls w)
  ∧ store Examples.revisited !! "form" = Some (Examples.a_is 1)
  ∧ synchronous.1 = Normal tt
  ∧ values synchronous.2 = Examples.a_is_0
  ∧ cells synchronous.2 = [IStr (Examples.a_is 1)]
  ∧ asynchronous.1 = Normal tt
  ∧ values asynchronous.2 = Examples.a_is_0
  ∧ cells asynchronous.2 = [IStr (Examples.a_is 1)]
  ∧ values
      (apply_persisted Host.JSON_stringify Host.JSON_parse
         (IStr (Examples.a_is 1)) Examples.a_is_0 Examples.revisited).2
    = Examples.a_is_1.
Proof.
  intros synchronous asynchronous. split_and!.
  - intros storage name w.
    destruct (getItem storage name (store w)) as [got|e] eqn:Hget.
    + by apply usePersistedString_state_undefined with got.
    + by apply usePersistedString_state_thrown.
  - intros JSON_stringify JSON_parse props window initialValues isValid w mounted.
    destruct (mount_keeps_form JSON_stringify JSON_parse props window
                initialValues isValid w) as (Hv & Hc & _).
    done.
  - vm_compute. reflexivity.
  - vm_compute. reflexivity.
  - vm_compute. reflexivity.
  - vm_compute. reflexivity.
  - vm_compute. reflexivity.
  - vm_compute. reflexivity.
  - vm_compute. reflexivity.
  - vm_compute. reflexivity.
Qed.

(** C8.  Where the identifier [window] is not declared, [useStorage]
    throws for every choice of storage, and with it the render; where
    [window] is declared and [undefined], the default choice resolves
    to no storage. *)
Theorem useStorage_needs_window :
  (∀ props,
     useStorage props Undeclared
     = Throw (ReferenceError "window is not defined"))
  ∧ mount Host.JSON_stringify Host.JSON_parse (Examples.props "form")
      Undeclared Examples.a_is_0 true Examples.revisited
    = (Throw (ReferenceError "window is not defined"), Examples.revisited)
  ∧ useStorage (Examples.props "form") (Declared None) = Normal None.
Proof.
  split_and!.
  - intros props. unfold useStorage. simpl.
    by destruct (default localStorage_name (storage props)).
  - vm_compute. reflexivity.
  - reflexivity.
Qed.

(** ** The key *)

(** C4, as described, fails in two ways.  On initial values that do not
    serialise [getHash] answers 0, and the hook throws before it has a
    key.  And the checksum is a sum of doubles: at the specificity
    1000000000000001 the sum of the products for [{a: 0}] is
    145000000000000145, and [getHash] returns 145000000000000128. *)
Lemma cyclic_values_and_rounded_sums :
  getHash_binary64 Host.JSON_stringify Examples.cyclic None = binary64_of_Z 0
  ∧ usePersistedString_name Host.JSON_stringify (Examples.hashed "form")
      Examples.cyclic
    = Throw (TypeError "Converting circular structure to JSON")
  ∧ usePersistedString_name Host.JSON_stringify (Examples.props "form")
      Examples.cyclic
    = Throw (TypeError "Converting circular structure to JSON")
  ∧ checksum_of (Host.JSON_stringify Examples.a_is_0) 1000000000000001
    = 145000000000000145
  ∧ binary64_to_Z
      (getHash_binary64 Host.JSON_stringify Examples.a_is_0
         (Some (binary64_of_Z 1000000000000001)))
    = Some 145000000000000128.
Proof. vm_compute. done. Qed.

(** C4.  For initial values whose serialisation does not throw, the key
    is the name of the form when [hashInitials] is not set; when it is
    set, and the specificity, which is 7 by default, is an integer whose
    checksum involves no rounding, the key is the name, the delimiter
    and the checksum.  There the checksum that [getHash] returns is the
    sum, over the characters of the serialised text other than the
    five stripped ones, of the character code times the specificity.
    For every specificity it is 0 when serialising throws or gives no
    text, and it is the same for two values with the same text. *)
Theorem key_resolution
  (JSON_stringify : value → completion (option string))
  (props : PersistFormikValuesProps) (initialValues : value) :
  (∀ e, JSON_stringify initialValues ≠ Throw e) →
  (truthy (hashInitials props) = true →
   exactly_summed (JSON_stringify initialValues)
     (default 7 (hashSpecificity props))) →
  usePersistedString_name JSON_stringify props initialValues
  = Normal
      (if truthy (hashInitials props)
       then name props +:+ "_" +:+
            pretty (checksum_of (JSON_stringify initialValues)
                      (default 7 (hashSpecificity props)))
       else name props)
  ∧ (truthy (hashInitials props) = true →
     getHash_binary64 JSON_stringify initialValues
       (binary64_of_Z <$> hashSpecificity props)
     = binary64_of_Z
         (checksum_of (JSON_stringify initialValues)
            (default 7 (hashSpecificity props))))
  ∧ (∀ obj specificity json,
       JSON_stringify obj = Normal (Some json) →
       exactly_summed (Normal (Some json)) (default 7 specificity) →
       getHash_binary64 JSON_stringify obj (binary64_of_Z <$> specificity)
       = binary64_of_Z (checksum json (default 7 specificity)))
  ∧ (∀ obj specificity e,
       JSON_stringify obj = Throw e →
       getHash_binary64 JSON_stringify obj specificity = binary64_of_Z 0)
  ∧ (∀ obj specificity,
       JSON_stringify obj = Normal None →
       getHash_binary64 JSON_stringify obj specificity = binary64_of_Z 0)
  ∧ (∀ a b specificity,
       JSON_stringify a = JSON_stringify b →
       getHash_binary64 JSON_stringify a specificity
       = getHash_binary64 JSON_stringify b specificity).
Proof.
  intros Hser Hexact. split_and!.
  - rewrite usePersistedString_name_serialisable by done.
    by rewrite getHash_checksum.
  - intros Hhash.
    rewrite getHash_binary64_of_Z by auto. by rewrite getHash_checksum.
  - intros obj specificity json H Hsum.
    rewrite getHash_binary64_of_Z by by rewrite H.
    by rewrite getHash_checksum, H.
  - intros obj specificity e H.
    apply getHash_binary64_unserialised. intros json. by rewrite H.
  - intros obj specificity H.
    apply getHash_binary64_unserialised. intros json. by rewrite H.
  - intros a b specificity H. by apply getHash_binary64_same_text.
Qed.

Lemma key_resolution_witness :
  (∀ e, Host.JSON_stringify Examples.a_is_0 ≠ Throw e)
  ∧ (truthy (hashInitials (Examples.hashed "form")) = true →
     exactly_summed (Host.JSON_stringify Examples.a_is_0)
       (default 7 (hashSpecificity (Examples.hashed "form"))))
  ∧ (truthy (hashInitials (Examples.props "form")) = true →
     exactly_summed (Host.JSON_stringify Examples.a_is_0)
       (default 7 (hashSpecificity (Examples.props "form"))))
  ∧ usePersistedString_name Host.JSON_stringify (Examples.hashed "form")
      Examples.a_is_0
    = Normal "form_1015"
  ∧ getHash_binary64 Host.JSON_stringify Examples.a_is_0 None
    = binary64_of_Z 1015
  ∧ usePersistedString_name Host.JSON_stringify (Examples.props "form")
      Examples.a_is_0
    = Normal "form".
Proof.
  assert (H1 : ∀ e, Host.JSON_stringify Examples.a_is_0 ≠ Throw e)
    by (intros e; vm_compute; discriminate).
  assert (H2 : truthy (hashInitials (Examples.hashed "form")) = true →
               exactly_summed (Host.JSON_stringify Examples.a_is_0)
                 (default 7 (hashSpecificity (Examples.hashed "form"))))
    by (intros _; split; vm_compute; reflexivity).
  assert (H3 : truthy (hashInitials (Examples.props "form")) = true →
               exactly_summed (Host.JSON_stringify Examples.a_is_0)
                 (default 7 (hashSpecificity (Examples.props "form"))))
    by (intros _; split; vm_compute; reflexivity).
  split_and!; [done | done | done | | |].
  - exact (proj1 (key_resolution Host.JSON_stringify (Examples.hashed "form")
                    Examples.a_is_0 H1 H2)).
  - exact (proj1 (proj2 (key_resolution Host.JSON_stringify
                           (Examples.hashed "form") Examples.a_is_0 H1 H2))
             eq_refl).
  - exact (proj1 (key_resolution Host.JSON_stringify (Examples.props "form")
                    Examples.a_is_0 H1 H3)).
Defined.

(** C10, as described, fails in two ways.  At the specificity 0 all
    checksums are 0: two values collide there and differ at the
    specificity 1.  And the sum is a sum of doubles: [abc] and [cba]
    collide at the specificity 7 and differ at 123456789012345, where
    neither checksum is 123456789012345 times the checksum at 1. *)
Lemma collision_does_not_carry_over :
  let checksum_at (s : Z) (v : value) :=
    binary64_to_Z
      (getHash_binary64 Host.JSON_stringify v (Some (binary64_of_Z s))) in
  checksum_at 0 (VStr "a") = checksum_at 0 (VStr "b")
  ∧ checksum_at 1 (VStr "a") ≠ checksum_at 1 (VStr "b")
  ∧ checksum_at 7 (VStr "abc") = Some 2058
  ∧ checksum_at 7 (VStr "cba") = Some 2058
  ∧ checksum_at 123456789012345 (VStr "abc") = Some 36296295969629424
  ∧ checksum_at 123456789012345 (VStr "cba") = Some 36296295969629432
  ∧ checksum_at 1 (VStr "abc") = Some 294
  ∧ 123456789012345 * 294 = 36296295969629430.
Proof. vm_compute. split_and!; (reflexivity || discriminate). Qed.

(** C10.  Where the specificity is an integer and the sums at that
    specificity and at 1 involve no rounding, the checksum is linear in
    the specificity: the checksum at 1 is an integer [n], and the
    checksum at [s] is [s * n]; when serialising throws, the checksum
    is 0 at every specificity.  So two values whose checksums are
    equal at such a specificity other than 0 have equal checksums at
    every specificity at which their sums involve no rounding. *)
Theorem checksum_scales
  (JSON_stringify : value → completion (option string))
  (a b : value) (s : Z) :
  exactly_summed (JSON_stringify a) s →
  exactly_summed (JSON_stringify a) 1 →
  (∃ n,
     binary64_to_Z
       (getHash_binary64 JSON_stringify a (Some (binary64_of_Z 1))) = Some n
     ∧ binary64_to_Z
         (getHash_binary64 JSON_stringify a (Some (binary64_of_Z s)))
       = Some (s * n))
  ∧ (∀ e specificity,
       JSON_stringify a = Throw e →
       getHash_binary64 JSON_stringify a specificity = binary64_of_Z 0)
  ∧ (s ≠ 0 →
     exactly_summed (JSON_stringify b) s →
     getHash_binary64 JSON_stringify a (Some (binary64_of_Z s))
     = getHash_binary64 JSON_stringify b (Some (binary64_of_Z s)) →
     ∀ s' : option Z,
       exactly_summed (JSON_stringify a) (default 7 s') →
       exactly_summed (JSON_stringify b) (default 7 s') →
       getHash_binary64 JSON_stringify a (binary64_of_Z <$> s')
       = getHash_binary64 JSON_stringify b (binary64_of_Z <$> s')).
Proof.
  intros Hs H1. split_and!.
  - exists (checksum_of (JSON_stringify a) 1). split.
    + exact (getHash_binary64_to_Z JSON_stringify a (Some 1) H1).
    + rewrite <- checksum_of_linear.
      exact (getHash_binary64_to_Z JSON_stringify a (Some s) Hs).
  - intros e specificity H.
    apply getHash_binary64_unserialised. intros json. by rewrite H.
  - intros Hne Hb Hcollide s' Ha' Hb'.
    pose proof (getHash_binary64_of_Z JSON_stringify a (Some s) Hs) as Ea.
    pose proof (getHash_binary64_of_Z JSON_stringify b (Some s) Hb) as Eb.
    simpl in Ea, Eb. rewrite Ea, Eb in Hcollide.
    apply binary64_of_Z_inj in Hcollide.
    2, 3: rewrite getHash_checksum; by destruct Hs, Hb.
    rewrite (getHash_linear _ a s), (getHash_linear _ b s) in Hcollide.
    assert (Hone : getHash JSON_stringify a (Some 1)
                   = getHash JSON_stringify b (Some 1)) by nia.
    rewrite !getHash_binary64_of_Z by done. f_equal.
    destruct s' as [s'|].
    + by rewrite (getHash_linear _ a s'), (getHash_linear _ b s'), Hone.
    + by rewrite !getHash_default, (getHash_linear _ a 7),
           (getHash_linear _ b 7), Hone.
Qed.

Lemma checksum_scales_witness :
  exactly_summed (Host.JSON_stringify (VStr "ab")) 7
  ∧ exactly_summed (Host.JSON_stringify (VStr "ab")) 1
  ∧ 7 ≠ 0
  ∧ exactly_summed (Host.JSON_stringify (VStr "ba")) 7
  ∧ getHash_binary64 Host.JSON_stringify (VStr "ab") (Some (binary64_of_Z 7))
    = getHash_binary64 Host.JSON_stringify (VStr "ba") (Some (binary64_of_Z 7))
  ∧ exactly_summed (Host.JSON_stringify (VStr "ab")) 11
  ∧ exactly_summed (Host.JSON_stringify (VStr "ba")) 11
  ∧ getHash_binary64 Host.JSON_stringify (VStr "ab") (Some (binary64_of_Z 11))
    = getHash_binary64 Host.JSON_stringify (VStr "ba") (Some (binary64_of_Z 11)).
Proof.
  assert (H1 : exactly_summed (Host.JSON_stringify (VStr "ab")) 7)
    by (split; vm_compute; reflexivity).
  assert (H2 : exactly_summed (Host.JSON_stringify (VStr "ab")) 1)
    by (split; vm_compute; reflexivity).
  assert (H3 : 7 ≠ 0) by lia.
  assert (H4 : exactly_summed (Host.JSON_stringify (VStr "ba")) 7)
    by (split; vm_compute; reflexivity).
  assert (H5 : getHash_binary64 Host.JSON_stringify (VStr "ab")
                 (Some (binary64_of_Z 7))
               = getHash_binary64 Host.JSON_stringify (VStr "ba")
                   (Some (binary64_of_Z 7)))
    by (vm_compute; reflexivity).
  assert (H6 : exactly_summed (Host.JSON_stringify (VStr "ab")) 11)
    by (split; vm_compute; reflexivity).
  assert (H7 : exactly_summed (Host.JSON_stringify (VStr "ba")) 11)
    by (split; vm_compute; reflexivity).
  split_and!; [done | done | done | done | done | done | done |].
  exact (proj2 (proj2 (checksum_scales Host.JSON_stringify
                         (VStr "ab") (VStr "ba") 7 H1 H2))
           H3 H4 H5 (Some 11) H6 H7).
Defined.

(** * Further properties of the component *)

(** ** Strings *)

Lemma length_append (s t : string) :
  String.length (s +:+ t) = (String.length s + String.length t)%nat.
Proof.
  induction s as [|a s IH]; [done|].
  rewrite append_cons. simpl. by rewrite IH.
Qed.

Lemma length_substring (s : string) :
  ∀ n m, (String.length (String.substring n m s) ≤ String.length s)%nat.
Proof.
  induction s as [|c s IH]; intros [|n] [|m]; simpl; try lia.
  - specialize (IH 0%nat m). lia.
  - specialize (IH n 0%nat). lia.
  - specialize (IH n (S m)). lia.
Qed.

Lemma substring_infix (pre p rest : string) :
  String.substring (String.length pre) (String.length p) (pre +:+ p +:+ rest) = p.
Proof.
  induction pre as [|a pre IH].
  - exact (substring_prefix p rest).
  - rewrite append_cons. simpl. apply IH.
Qed.

(** A text that contains the pattern has an index for it. *)
Lemma indexOf_infix (pre p rest : string) : indexOf (pre +:+ p +:+ rest) p > -1.
Proof.
  unfold indexOf.
  destruct (String.index 0 p (pre +:+ p +:+ rest)) as [i|] eqn:E; [lia|].
  destruct (decide (p = EmptyString)) as [->|Hp].
  - apply String.index_correct4 in E. lia.
  - exfalso.
    apply (String.index_correct3 0 (String.length pre) p _ E Hp); [lia|].
    apply substring_infix.
Qed.

(** A text shorter than the pattern has none. *)
Lemma indexOf_longer_pattern (s p : string) :
  (String.length s < String.length p)%nat → indexOf s p = -1.
Proof.
  intros Hlen. unfold indexOf.
  destruct (String.index 0 p s) as [i|] eqn:E; [|done].
  apply String.index_correct1 in E.
  pose proof (length_substring s i (String.length p)) as Hsub.
  rewrite E in Hsub. lia.
Qed.

(** ** The size of a store *)

Lemma store_size_delete (k : string) (st : gmap string string) :
  (store_size (delete k st) ≤ store_size st)%nat.
Proof.
  destruct (st !! k) as [x|] eqn:E.
  - unfold store_size.
    rewrite (map_fold_delete_L _ _ k x st); [lia | | done].
    intros. lia.
  - by rewrite delete_id.
Qed.

Lemma store_size_prune (keyName name : string) (keys : list string) :
  ∀ st, (store_size (prune keyName name keys st) ≤ store_size st)%nat.
Proof.
  induction keys as [|key keys IH]; intros st; [done|].
  change (prune keyName name (key :: keys) st)
    with (prune keyName name keys
            (if superseded keyName name key then delete key st else st)).
  etrans; [apply IH|].
  destruct (superseded keyName name key); [apply store_size_delete | done].
Qed.

(** ** The write path on Web Storage, continued *)

Section Writes.

Variable JSON_stringify : value → completion (option string).

(** What a write that returned normally has done. *)
Lemma write_succeeded (quota : nat) (name keyName : string) (v : value)
  (w w' : World) :
  handlePersistValues JSON_stringify (Some (webStorage quota)) name keyName v w
  = (Normal tt, w') →
  ∃ json,
    JSON_stringify v = Normal json
    ∧ (store w !! name = Some (DOMString json)
       ∨ (store_size (<[name := DOMString json]> (store w)) ≤ quota)%nat)
    ∧ w' = with_store
             (prune keyName name
                (map_to_list (<[name := DOMString json]> (store w))).*1
                (<[name := DOMString json]> (store w))) w.
Proof.
  rewrite handlePersistValues_web.
  destruct (JSON_stringify v) as [json|e]; [|done]. simpl.
  case_decide; [|done].
  intros [= <-]. by exists json.
Qed.

Lemma written_lookup (name keyName payload : string)
  (st : gmap string string) (k : string) :
  prune keyName name (map_to_list (<[name := payload]> st)).*1
    (<[name := payload]> st) !! k
  = if decide (k = name) then Some payload
    else if bool_decide (indexOf k keyName > -1) then None
    else st !! k.
Proof.
  rewrite pruned_lookup.
  destruct (decide (k = name)) as [->|Hne].
  - rewrite superseded_written. apply lookup_insert_eq.
  - unfold superseded. rewrite (bool_decide_eq_false_2 (k = name)) by done.
    rewrite andb_true_r.
    destruct (bool_decide (indexOf k keyName > -1)); [done|].
    by rewrite lookup_insert_ne.
Qed.

End Writes.

(** X1.  A write that returns normally leaves the store with the
    payload under the written key, without any other key that contains
    the key prefix, and with every remaining key as it was; it touches
    neither the console nor the form. *)
Theorem write_changes_only_its_keys
  (JSON_stringify : value → completion (option string))
  (quota : nat) (name keyName : string) (v : value) (w w' : World) :
  handlePersistValues JSON_stringify (Some (webStorage quota)) name keyName v w
  = (Normal tt, w') →
  (∃ json,
     JSON_stringify v = Normal json
     ∧ ∀ k, store w' !! k
            = if decide (k = name) then Some (DOMString json)
              else if bool_decide (indexOf k keyName > -1) then None
              else store w !! k)
  ∧ console w' = console w
  ∧ values w' = values w
  ∧ setValues_calls w' = setValues_calls w.
Proof.
  intros Hwrite.
  destruct (write_succeeded _ _ _ _ _ _ _ Hwrite) as (json & Hjson & _ & ->).
  split; [|done]. exists json. split; [done|].
  intros k. simpl. apply written_lookup.
Qed.

Lemma write_changes_only_its_keys_witness :
  let written :=
    (handlePersistValues Host.JSON_stringify (Some (webStorage 5000))
       "form" "form_" Examples.a_is_1 Scenarios.shared).2 in
  handlePersistValues Host.JSON_stringify (Some (webStorage 5000))
    "form" "form_" Examples.a_is_1 Scenarios.shared
  = (Normal tt, written)
  ∧ store written !! "other" = Some "kept"
  ∧ console written = [].
Proof.
  intros written.
  assert (H : handlePersistValues Host.JSON_stringify (Some (webStorage 5000))
                "form" "form_" Examples.a_is_1 Scenarios.shared
              = (Normal tt, written)) by (vm_compute; reflexivity).
  destruct (write_changes_only_its_keys Host.JSON_stringify 5000 "form" "form_"
              Examples.a_is_1 Scenarios.shared written H)
    as ((json & _ & Hstore) & Hconsole & _).
  split_and!; [done | | done].
  rewrite (Hstore "other"). vm_compute. reflexivity.
Defined.

(** X2.  The pruning looks for the key prefix anywhere in a key: a
    write for a form removes every other key that contains the name of
    the form followed by the delimiter, also a key of another form
    that does not start with it. *)
Theorem write_removes_keys_containing_prefix
  (JSON_stringify : value → completion (option string))
  (quota : nat) (formName name : string) (v : value) (w w' : World)
  (before after : string) :
  handlePersistValues JSON_stringify (Some (webStorage quota))
    name (formName +:+ KEY_DELIMITER) v w = (Normal tt, w') →
  before +:+ (formName +:+ KEY_DELIMITER) +:+ after ≠ name →
  store w' !! (before +:+ (formName +:+ KEY_DELIMITER) +:+ after) = None.
Proof.
  intros Hwrite Hne.
  destruct (write_succeeded _ _ _ _ _ _ _ Hwrite) as (json & _ & _ & ->).
  simpl. rewrite written_lookup, decide_False by done.
  by rewrite bool_decide_eq_true_2 by apply indexOf_infix.
Qed.

Lemma write_removes_keys_containing_prefix_witness :
  let written :=
    (handlePersistValues Host.JSON_stringify (Some (webStorage 5000))
       "form" "form_" Examples.a_is_1 Scenarios.shared).2 in
  handlePersistValues Host.JSON_stringify (Some (webStorage 5000))
    "form" ("form" +:+ KEY_DELIMITER) Examples.a_is_1 Scenarios.shared
  = (Normal tt, written)
  ∧ "plat" +:+ ("form" +:+ KEY_DELIMITER) +:+ "settings" ≠ "form"
  ∧ store Scenarios.shared !! "platform_settings" = Some "dark"
  ∧ store written !! "platform_settings" = None.
Proof.
  intros written.
  assert (H1 : handlePersistValues Host.JSON_stringify (Some (webStorage 5000))
                 "form" ("form" +:+ KEY_DELIMITER) Examples.a_is_1
                 Scenarios.shared
               = (Normal tt, written)) by (vm_compute; reflexivity).
  assert (H2 : "plat" +:+ ("form" +:+ KEY_DELIMITER) +:+ "settings" ≠ "form")
    by (vm_compute; discriminate).
  split_and!; [done | done | vm_compute; reflexivity |].
  exact (write_removes_keys_containing_prefix Host.JSON_stringify 5000
           "form" "form" Examples.a_is_1 Scenarios.shared written
           "plat" "settings" H1 H2).
Defined.

(** X3.  A write under a hashed key, which is the name of the form,
    the delimiter and a suffix, never prunes the key that is the plain
    name of the form: a payload written before [hashInitials] was set
    stays in the store. *)
Theorem hashed_write_keeps_plain_key
  (JSON_stringify : value → completion (option string))
  (quota : nat) (formName suffix : string) (v : value) (w w' : World) :
  handlePersistValues JSON_stringify (Some (webStorage quota))
    ((formName +:+ KEY_DELIMITER) +:+ suffix) (formName +:+ KEY_DELIMITER) v w
  = (Normal tt, w') →
  store w' !! formName = store w !! formName.
Proof.
  intros Hwrite.
  destruct (write_succeeded _ _ _ _ _ _ _ Hwrite) as (json & _ & _ & ->).
  simpl. rewrite written_lookup.
  assert (Hlen : (String.length formName
                  < String.length (formName +:+ KEY_DELIMITER))%nat).
  { rewrite length_append. simpl. lia. }
  rewrite decide_False.
  - by rewrite bool_decide_eq_false_2
      by (rewrite indexOf_longer_pattern by done; lia).
  - intros Heq. apply (f_equal String.length) in Heq.
    rewrite length_append in Heq. lia.
Qed.

Lemma hashed_write_keeps_plain_key_witness :
  let written :=
    (handlePersistValues Host.JSON_stringify (Some (webStorage 5000))
       "form_1015" "form_" Examples.a_is_1 Scenarios.unhashed).2 in
  handlePersistValues Host.JSON_stringify (Some (webStorage 5000))
    (("form" +:+ KEY_DELIMITER) +:+ "1015") ("form" +:+ KEY_DELIMITER)
    Examples.a_is_1 Scenarios.unhashed
  = (Normal tt, written)
  ∧ store written !! "form" = Some (Examples.a_is 0).
Proof.
  intros written.
  assert (H : handlePersistValues Host.JSON_stringify (Some (webStorage 5000))
                (("form" +:+ KEY_DELIMITER) +:+ "1015")
                ("form" +:+ KEY_DELIMITER) Examples.a_is_1 Scenarios.unhashed
              = (Normal tt, written)) by (vm_compute; reflexivity).
  split; [done|].
  rewrite (hashed_write_keeps_plain_key Host.JSON_stringify 5000 "form" "1015"
             Examples.a_is_1 Scenarios.unhashed written H).
  vm_compute. reflexivity.
Defined.

(** X4.  Writing the same values again under the same key succeeds and
    changes nothing. *)
Theorem write_again_changes_nothing
  (JSON_stringify : value → completion (option string))
  (quota : nat) (name keyName : string) (v : value) (w w' : World) :
  handlePersistValues JSON_stringify (Some (webStorage quota)) name keyName v w
  = (Normal tt, w') →
  handlePersistValues JSON_stringify (Some (webStorage quota)) name keyName v w'
  = (Normal tt, w').
Proof.
  intros Hwrite.
  destruct (write_succeeded _ _ _ _ _ _ _ Hwrite) as (json & Hjson & _ & ->).
  set (st := <[name := DOMString json]> (store w)).
  set (st' := prune keyName name (map_to_list st).*1 st).
  assert (Hname : st' !! name = Some (DOMString json)).
  { unfold st', st. rewrite written_lookup. by rewrite decide_True. }
  rewrite handlePersistValues_web, Hjson. simpl.
  rewrite (insert_id st' name _ Hname).
  rewrite decide_True by by left.
  assert (Hsame : prune keyName name (map_to_list st').*1 st' = st').
  { apply map_eq. intros k. rewrite pruned_lookup.
    destruct (superseded keyName name k) eqn:Hs; [|done].
    unfold st'. by rewrite pruned_lookup, Hs. }
  by rewrite Hsame.
Qed.

Lemma write_again_changes_nothing_witness :
  let written :=
    (handlePersistValues Host.JSON_stringify (Some (webStorage 5000))
       "form_456" "form_" Examples.a_is_1 Examples.rotated).2 in
  handlePersistValues Host.JSON_stringify (Some (webStorage 5000))
    "form_456" "form_" Examples.a_is_1 Examples.rotated
  = (Normal tt, written)
  ∧ handlePersistValues Host.JSON_stringify (Some (webStorage 5000))
      "form_456" "form_" Examples.a_is_1 written
    = (Normal tt, written).
Proof.
  intros written.
  assert (H : handlePersistValues Host.JSON_stringify (Some (webStorage 5000))
                "form_456" "form_" Examples.a_is_1 Examples.rotated
              = (Normal tt, written)) by (vm_compute; reflexivity).
  split; [done|].
  exact (write_again_changes_nothing Host.JSON_stringify 5000 "form_456"
           "form_" Examples.a_is_1 Examples.rotated written H).
Defined.

(** X5.  A write that fails has changed nothing: when serialising the
    values throws, or [setItem] throws because the quota is exceeded,
    the exception leaves [handlePersistValues], no key is pruned, and
    the payload stored before is still there. *)
Theorem failed_write_changes_nothing
  (JSON_stringify : value → completion (option string))
  (quota : nat) (name keyName : string) (v : value) (e : exn) (w w' : World) :
  handlePersistValues JSON_stringify (Some (webStorage quota)) name keyName v w
  = (Throw e, w') →
  w' = w
  ∧ (JSON_stringify v = Throw e
     ∨ ∃ json,
         JSON_stringify v = Normal json
         ∧ (quota < store_size (<[name := DOMString json]> (store w)))%nat
         ∧ e = DOMException "QuotaExceededError").
Proof.
  rewrite handlePersistValues_web.
  destruct (JSON_stringify v) as [json|e'].
  - simpl.
    case_decide as Hover; [done|].
    intros [= <- <-]. split; [done|]. right. exists json.
    split_and!; [done | | done].
    apply Nat.lt_nge. intros Hfits. apply Hover. by right.
  - intros [= <- <-]. split; [done | by left].
Qed.

Lemma failed_write_changes_nothing_witness :
  let failed :=
    handlePersistValues Host.JSON_stringify (Some (webStorage 20))
      "form_456" "form_" Examples.a_is_1 Examples.rotated in
  failed = (Throw (DOMException "QuotaExceededError"), failed.2)
  ∧ failed.2 = Examples.rotated
  ∧ store failed.2 !! "form_123" = Some (Examples.a_is 0).
Proof.
  intros failed.
  assert (H : failed = (Throw (DOMException "QuotaExceededError"), failed.2))
    by (vm_compute; reflexivity).
  pose proof (proj1 (failed_write_changes_nothing Host.JSON_stringify 20
                       "form_456" "form_" Examples.a_is_1 _ Examples.rotated
                       _ H)) as Hsame.
  split_and!; [done | done |].
  rewrite Hsame. vm_compute. reflexivity.
Defined.

(** ** From the store back to the form *)

(** X6.  What a write stores is what [getItem] answers for the written
    key afterwards, and the effect, given that text, sets the values
    of the form to the initial values overlaid with what the text
    parses to, if their serialisation differs from that of the current
    values. *)
Theorem written_payload_restores
  (JSON_stringify : value → completion (option string))
  (JSON_parse : string → completion value)
  (quota : nat) (name keyName : string) (snapshot parsed initialValues : value)
  (text : string) (w written : World) :
  handlePersistValues JSON_stringify (Some (webStorage quota))
    name keyName snapshot w = (Normal tt, written) →
  JSON_stringify snapshot = Normal (Some text) →
  text ≠ EmptyString →
  JSON_parse text = Normal parsed →
  getItem (webStorage quota) name (store written) = Normal (Sync (IStr text))
  ∧ ∀ current json,
      JSON_stringify (values written) = Normal current →
      JSON_stringify (spread initialValues parsed) = Normal json →
      current ≠ json →
      ∃ restored,
        apply_persisted JSON_stringify JSON_parse (IStr text) initialValues
          written = (Normal tt, restored)
        ∧ values restored = spread initialValues parsed
        ∧ store restored = store written.
Proof.
  intros Hwrite Htext Hnonempty Hparse.
  destruct (write_succeeded _ _ _ _ _ _ _ Hwrite) as (json & Hjson & _ & ->).
  rewrite Htext in Hjson. injection Hjson as <-.
  split.
  - simpl. rewrite written_lookup. by rewrite decide_True.
  - intros current json Hcurrent Hmerged Hdiff.
    rewrite (apply_persisted_restore _ _ _ _ current) by done.
    rewrite (restore_parsed _ _ _ _ _ _ _ _ Hnonempty Hparse Hmerged).
    rewrite bool_decide_eq_true_2 by done.
    eexists. split; [done|]. done.
Qed.

Lemma written_payload_restores_witness :
  let written :=
    (handlePersistValues Host.JSON_stringify (Some (webStorage 5000))
       "form" "form_" Examples.a_is_1 (Examples.world ∅ Examples.a_is_1)).2 in
  handlePersistValues Host.JSON_stringify (Some (webStorage 5000))
    "form" "form_" Examples.a_is_1 (Examples.world ∅ Examples.a_is_1)
  = (Normal tt, written)
  ∧ Host.JSON_stringify Examples.a_is_1 = Normal (Some (Examples.a_is 1))
  ∧ Examples.a_is 1 ≠ EmptyString
  ∧ Host.JSON_parse (Examples.a_is 1) = Normal Examples.a_is_1
  ∧ getItem (webStorage 5000) "form" (store written)
    = Normal (Sync (IStr (Examples.a_is 1))).
Proof.
  intros written.
  assert (H1 : handlePersistValues Host.JSON_stringify (Some (webStorage 5000))
                 "form" "form_" Examples.a_is_1
                 (Examples.world ∅ Examples.a_is_1)
               = (Normal tt, written)) by (vm_compute; reflexivity).
  assert (H2 : Host.JSON_stringify Examples.a_is_1
               = Normal (Some (Examples.a_is 1))) by (vm_compute; reflexivity).
  assert (H3 : Examples.a_is 1 ≠ EmptyString) by (vm_compute; discriminate).
  assert (H4 : Host.JSON_parse (Examples.a_is 1) = Normal Examples.a_is_1)
    by (vm_compute; reflexivity).
  split_and!; [done | done | done | done |].
  exact (proj1 (written_payload_restores Host.JSON_stringify Host.JSON_parse
                  5000 "form" "form_" Examples.a_is_1 Examples.a_is_1
                  Examples.a_is_0 (Examples.a_is 1)
                  (Examples.world ∅ Examples.a_is_1) written H1 H2 H3 H4)).
Defined.

(** X7.  When the values handed to the write serialise to [undefined],
    as the result of a [parseValues] that returns nothing does, Web
    Storage holds the text [undefined] under the key; that text does
    not parse, so the effect, given it, reports an error and restores
    nothing. *)
Theorem undefined_snapshot_cannot_be_restored
  (JSON_stringify : value → completion (option string))
  (JSON_parse : string → completion value)
  (quota : nat) (name keyName : string) (v initialValues : value) (e : exn)
  (stringValues : option string) (w written : World) :
  JSON_stringify v = Normal None →
  handlePersistValues JSON_stringify (Some (webStorage quota))
    name keyName v w = (Normal tt, written) →
  JSON_parse "undefined" = Throw e →
  store written !! name = Some "undefined"
  ∧ restore JSON_stringify JSON_parse (IStr "undefined") initialValues
      stringValues written
    = (Normal tt,
       with_console
         (console written ++ [("Parse persisted values is not possible", e)])
         written).
Proof.
  intros Hundefined Hwrite Hparse.
  destruct (write_succeeded _ _ _ _ _ _ _ Hwrite) as (json & Hjson & _ & ->).
  rewrite Hundefined in Hjson. injection Hjson as <-.
  split.
  - simpl. rewrite written_lookup. by rewrite decide_True.
  - by apply restore_unparsable.
Qed.

Lemma undefined_snapshot_cannot_be_restored_witness :
  let written :=
    (handlePersist (Scenarios.discarding "form")
       (handlePersistValues Host.JSON_stringify (Some (webStorage 5000))
          "form" "form_")
       Examples.a_is_1 true (Examples.world ∅ Examples.a_is_1)).2 in
  Host.JSON_stringify VUndefined = Normal None
  ∧ handlePersistValues Host.JSON_stringify (Some (webStorage 5000))
      "form" "form_" VUndefined (Examples.world ∅ Examples.a_is_1)
    = (Normal tt, written)
  ∧ Host.JSON_parse "undefined" = Throw (SyntaxError "Unexpected token in JSON")
  ∧ store written !! "form" = Some "undefined".
Proof.
  intros written.
  assert (H1 : Host.JSON_stringify VUndefined = Normal None) by reflexivity.
  assert (H2 : handlePersistValues Host.JSON_stringify (Some (webStorage 5000))
                 "form" "form_" VUndefined (Examples.world ∅ Examples.a_is_1)
               = (Normal tt, written)) by (vm_compute; reflexivity).
  assert (H3 : Host.JSON_parse "undefined"
               = Throw (SyntaxError "Unexpected token in JSON"))
    by (vm_compute; reflexivity).
  split_and!; [done | done | done |].
  exact (proj1 (undefined_snapshot_cannot_be_restored Host.JSON_stringify
                  Host.JSON_parse 5000 "form" "form_" VUndefined
                  Examples.a_is_0 _ None (Examples.world ∅ Examples.a_is_1)
                  written H1 H2 H3)).
Defined.

(** X8.  A payload that parses to a value without properties of its
    own, such as [null], a number or a boolean, merges to an object
    with the fields of the initial values and no others. *)
Theorem payload_without_properties_restores_initial_values
  (initialValues persistedValues : value) (k : string) :
  own_props persistedValues = [] →
  well_formed initialValues →
  get_prop k (own_props (spread initialValues persistedValues))
  = get_prop k (own_props initialValues).
Proof.
  intros Hnone Hinit. rewrite get_prop_spread; [by rewrite Hnone | done |].
  unfold well_formed. rewrite Hnone. constructor.
Qed.

Lemma payload_without_properties_restores_initial_values_witness :
  own_props VNull = []
  ∧ well_formed Scenarios.a1_b2
  ∧ Host.JSON_parse "null" = Normal VNull
  ∧ get_prop "b" (own_props (spread Scenarios.a1_b2 VNull)) = Some (VNum 2).
Proof.
  assert (H1 : own_props VNull = []) by reflexivity.
  assert (H2 : well_formed Scenarios.a1_b2)
    by (unfold well_formed; apply (bool_decide_unpack _); vm_compute; exact I).
  split_and!; [done | done | vm_compute; reflexivity |].
  rewrite (payload_without_properties_restores_initial_values
             Scenarios.a1_b2 VNull "b" H1 H2).
  reflexivity.
Defined.

(** ** The checksum and the key, continued *)

Lemma weighted_sum_permutation (l1 l2 : list ascii) (s : Z) :
  l1 ≡ₚ l2 →
  foldr (λ c sum, Z.of_N (N_of_ascii c) * s + sum) 0 l1
  = foldr (λ c sum, Z.of_N (N_of_ascii c) * s + sum) 0 l2.
Proof.
  induction 1 as [|x l1 l2 _ IH|x y l|l1 l2 l3 _ IH1 _ IH2]; simpl.
  - done.
  - by rewrite IH.
  - lia.
  - by rewrite IH1.
Qed.

(** X9.  Where the specificity is an integer and the sum involves no
    rounding, the checksum does not see the order of the characters:
    two values whose serialised texts, once stripped, have the same
    characters in any order have the same checksum, so values
    exchanged between the fields of the initial values do not change
    it. *)
Theorem getHash_ignores_order
  (JSON_stringify : value → completion (option string))
  (a b : value) (text_a text_b : string) (specificity : option Z) :
  JSON_stringify a = Normal (Some text_a) →
  JSON_stringify b = Normal (Some text_b) →
  list_ascii_of_string (replace_punctuation text_a)
  ≡ₚ list_ascii_of_string (replace_punctuation text_b) →
  exactly_summed (JSON_stringify a) (default 7 specificity) →
  getHash_binary64 JSON_stringify a (binary64_of_Z <$> specificity)
  = getHash_binary64 JSON_stringify b (binary64_of_Z <$> specificity).
Proof.
  intros Ha Hb Hperm Hexact.
  assert (Hsame : checksum_of (JSON_stringify a) (default 7 specificity)
                  = checksum_of (JSON_stringify b) (default 7 specificity)).
  { rewrite Ha, Hb. simpl. unfold checksum.
    rewrite <- !replace_punctuation_filter.
    by apply weighted_sum_permutation. }
  assert (Hexact_b : exactly_summed (JSON_stringify b) (default 7 specificity)).
  { destruct Hexact as [Hs Hsum]. split; [done|]. by rewrite <- Hsame. }
  rewrite !getHash_binary64_of_Z by done.
  by rewrite !getHash_checksum, Hsame.
Qed.

Lemma getHash_ignores_order_witness :
  let text_a := "{" +:+ quoted "a" +:+ ":1," +:+ quoted "b" +:+ ":2}" in
  let text_b := "{" +:+ quoted "a" +:+ ":2," +:+ quoted "b" +:+ ":1}" in
  Host.JSON_stringify Scenarios.a1_b2 = Normal (Some text_a)
  ∧ Host.JSON_stringify Scenarios.a2_b1 = Normal (Some text_b)
  ∧ list_ascii_of_string (replace_punctuation text_a)
    ≡ₚ list_ascii_of_string (replace_punctuation text_b)
  ∧ exactly_summed (Host.JSON_stringify Scenarios.a1_b2) (default 7 None)
  ∧ getHash_binary64 Host.JSON_stringify Scenarios.a1_b2 None
    = getHash_binary64 Host.JSON_stringify Scenarios.a2_b1 None.
Proof.
  intros text_a text_b.
  assert (H1 : Host.JSON_stringify Scenarios.a1_b2 = Normal (Some text_a))
    by (vm_compute; reflexivity).
  assert (H2 : Host.JSON_stringify Scenarios.a2_b1 = Normal (Some text_b))
    by (vm_compute; reflexivity).
  assert (H3 : list_ascii_of_string (replace_punctuation text_a)
               ≡ₚ list_ascii_of_string (replace_punctuation text_b))
    by (apply (bool_decide_unpack _); vm_compute; exact I).
  assert (H4 : exactly_summed (Host.JSON_stringify Scenarios.a1_b2)
                 (default 7 None))
    by (split; vm_compute; reflexivity).
  split_and!; [done | done | done | done |].
  exact (getHash_ignores_order Host.JSON_stringify Scenarios.a1_b2
           Scenarios.a2_b1 text_a text_b None H1 H2 H3 H4).
Defined.



(** X11.  Where the specificity is an integer and it and the sum of the
    character codes times it are below 2^53 in magnitude, the loop of
    [getHash] rounds nothing: the double it returns is that sum, which
    is the specificity times the sum of the codes, itself not
    negative. *)
Theorem getHash_exact_on_safe_integers
  (JSON_stringify : value → completion (option string))
  (obj : value) (specificity : option Z) :
  exactly_summed (JSON_stringify obj) (default 7 specificity) →
  getHash_binary64 JSON_stringify obj (binary64_of_Z <$> specificity)
  = binary64_of_Z (getHash JSON_stringify obj specificity)
  ∧ binary64_to_Z
      (getHash_binary64 JSON_stringify obj (binary64_of_Z <$> specificity))
    = Some (default 7 specificity * checksum_of (JSON_stringify obj) 1)
  ∧ 0 ≤ checksum_of (JSON_stringify obj) 1.
Proof.
  intros Hexact. split_and!.
  - by apply getHash_binary64_of_Z.
  - rewrite <- checksum_of_linear. by apply getHash_binary64_to_Z.
  - destruct (JSON_stringify obj) as [[json|]|e]; simpl; try lia.
    apply weighted_sum_nonneg.
Qed.

Lemma getHash_exact_on_safe_integers_witness :
  exactly_summed (Host.JSON_stringify Examples.a_is_0) (default 7 None)
  ∧ binary64_to_Z (getHash_binary64 Host.JSON_stringify Examples.a_is_0 None)
    = Some (7 * 145).
Proof.
  assert (H : exactly_summed (Host.JSON_stringify Examples.a_is_0)
                (default 7 None))
    by (split; vm_compute; reflexivity).
  split; [done|].
  exact (proj1 (proj2 (getHash_exact_on_safe_integers Host.JSON_stringify
                         Examples.a_is_0 None H))).
Defined.

(** ** The first render *)

Section Render.

Variable JSON_stringify : value → completion (option string).
Variable JSON_parse : string → completion value.

Lemma PersistFormikValuesMemo_rendered
  (props : PersistFormikValuesProps) (window : binding)
  (initialValues : value) (isValid : bool) (w w1 : World)
  (key : string) (storage : option Storage) (state : item)
  (current : option string) :
  usePersistedString_name JSON_stringify props initialValues = Normal key →
  useStorage props window = Normal storage →
  usePersistedString_state storage key w = (Normal state, w1) →
  JSON_stringify (values w) = Normal current →
  PersistFormikValuesMemo JSON_stringify JSON_parse props window initialValues
    isValid w
  = (Normal
       {| effect :=
            restore JSON_stringify JSON_parse state initialValues current;
          debounced :=
            handlePersist props
              (handlePersistValues JSON_stringify storage key
                 (name props +:+ KEY_DELIMITER))
              (values w) isValid |},
     w1).
Proof.
  intros Hkey Hstorage Hstate Hcurrent.
  unfold PersistFormikValuesMemo, usePersistedString, get_values, lift,
    mbind, M_bind.
  simpl. rewrite Hkey, Hstorage, Hstate. simpl. by rewrite Hcurrent.
Qed.

Lemma PersistFormikValuesMemo_thrown
  (props : PersistFormikValuesProps) (window : binding)
  (initialValues : value) (isValid : bool) (w w1 : World)
  (key : string) (storage : option Storage) (e : exn) :
  usePersistedString_name JSON_stringify props initialValues = Normal key →
  useStorage props window = Normal storage →
  usePersistedString_state storage key w = (Throw e, w1) →
  PersistFormikValuesMemo JSON_stringify JSON_parse props window initialValues
    isValid w
  = (Throw e, w1).
Proof.
  intros Hkey Hstorage Hstate.
  unfold PersistFormikValuesMemo, usePersistedString, get_values, lift,
    mbind, M_bind.
  simpl. by rewrite Hkey, Hstorage, Hstate.
Qed.

Lemma serialisable_normal (v : value) :
  (∀ e, JSON_stringify v ≠ Throw e) → ∃ text, JSON_stringify v = Normal text.
Proof.
  intros H. destruct (JSON_stringify v) as [text|e]; [by exists text|].
  by destruct (H e).
Qed.

End Render.

(** X12.  Where the storage resolves to [undefined], the render
    succeeds without touching anything, its effect does nothing, and
    the debounced callback does nothing for whatever values and
    validity: persistence is switched off without an error. *)
Theorem without_storage_nothing_is_persisted
  (JSON_stringify : value → completion (option string))
  (JSON_parse : string → completion value)
  (props : PersistFormikValuesProps) (window : binding)
  (initialValues : value) (isValid : bool) (w : World) :
  useStorage props window = Normal None →
  (∀ e, JSON_stringify initialValues ≠ Throw e) →
  (∀ e, JSON_stringify (values w) ≠ Throw e) →
  ∃ rendered,
    PersistFormikValuesMemo JSON_stringify JSON_parse props window
      initialValues isValid w = (Normal rendered, w)
    ∧ ∀ w', effect rendered w' = (Normal tt, w')
            ∧ debounced rendered w' = (Normal tt, w').
Proof.
  intros Hstorage Hinit Hvalues.
  destruct (serialisable_normal _ _ Hvalues) as [current Hcurrent].
  eexists. split.
  - eapply PersistFormikValuesMemo_rendered; try done.
    by apply usePersistedString_name_serialisable.
  - intros w'. simpl. split; [done|].
    destruct (isValid || truthy (persistInvalid props)) eqn:Hgate.
    + by rewrite handlePersist_open.
    + by apply handlePersist_gated.
Qed.

Lemma without_storage_nothing_is_persisted_witness :
  useStorage (Examples.props "form") Scenarios.storeless = Normal None
  ∧ (∀ e, Host.JSON_stringify Examples.a_is_0 ≠ Throw e)
  ∧ (∀ e, Host.JSON_stringify (values Examples.revisited) ≠ Throw e)
  ∧ ∃ rendered,
      PersistFormikValuesMemo Host.JSON_stringify Host.JSON_parse
        (Examples.props "form") Scenarios.storeless Examples.a_is_0 true
        Examples.revisited = (Normal rendered, Examples.revisited)
      ∧ ∀ w', effect rendered w' = (Normal tt, w')
              ∧ debounced rendered w' = (Normal tt, w').
Proof.
  assert (H1 : useStorage (Examples.props "form") Scenarios.storeless
               = Normal None) by reflexivity.
  assert (H2 : ∀ e, Host.JSON_stringify Examples.a_is_0 ≠ Throw e)
    by (intros e; vm_compute; discriminate).
  assert (H3 : ∀ e, Host.JSON_stringify (values Examples.revisited) ≠ Throw e)
    by (intros e; vm_compute; discriminate).
  split_and!; [done | done | done |].
  exact (without_storage_nothing_is_persisted Host.JSON_stringify
           Host.JSON_parse (Examples.props "form") Scenarios.storeless
           Examples.a_is_0 true Examples.revisited H1 H2 H3).
Defined.

(** X13.  A [getItem] that throws, instead of returning a promise that
    rejects, is not covered by the [catch] of the read: the exception
    leaves the render, the mount fails with it, and nothing is
    reported to the console. *)
Theorem throwing_getItem_fails_the_render
  (JSON_stringify : value → completion (option string))
  (JSON_parse : string → completion value)
  (props : PersistFormikValuesProps) (window : binding)
  (initialValues : value) (isValid : bool) (w : World)
  (key : string) (storage : Storage) (e : exn) :
  usePersistedString_name JSON_stringify props initialValues = Normal key →
  useStorage props window = Normal (Some storage) →
  getItem storage key (store w) = Throw e →
  let mounted :=
    mount JSON_stringify JSON_parse props window initialValues isValid w in
  mounted.1 = Throw e
  ∧ console mounted.2 = console w
  ∧ jobs mounted.2 = jobs w
  ∧ store mounted.2 = store w.
Proof.
  intros Hkey Hstorage Hget mounted. unfold mounted, mount, mbind, M_bind.
  rewrite (PersistFormikValuesMemo_thrown _ _ _ _ _ _ _
             (with_cells (cells w ++ [IUndefined]) w) key (Some storage) e);
    try done.
  unfold usePersistedString_state, mbind, M_bind, declare, call_get.
  simpl. by rewrite Hget.
Qed.

Lemma throwing_getItem_fails_the_render_witness :
  let props :=
    Examples.custom "form" (Scenarios.throwing (Thrown "denied")) in
  let mounted :=
    mount Host.JSON_stringify Host.JSON_parse props Examples.browser
      Examples.a_is_0 true Examples.revisited in
  usePersistedString_name Host.JSON_stringify props Examples.a_is_0
  = Normal "form"
  ∧ useStorage props Examples.browser
    = Normal (Some (Scenarios.throwing (Thrown "denied")))
  ∧ getItem (Scenarios.throwing (Thrown "denied")) "form"
      (store Examples.revisited)
    = Throw (Thrown "denied")
  ∧ mounted.1 = Throw (Thrown "denied")
  ∧ console mounted.2 = console Examples.revisited.
Proof.
  intros props mounted.
  assert (H1 : usePersistedString_name Host.JSON_stringify props
                 Examples.a_is_0 = Normal "form") by (vm_compute; reflexivity).
  assert (H2 : useStorage props Examples.browser
               = Normal (Some (Scenarios.throwing (Thrown "denied"))))
    by reflexivity.
  assert (H3 : getItem (Scenarios.throwing (Thrown "denied")) "form"
                 (store Examples.revisited)
               = Throw (Thrown "denied")) by reflexivity.
  destruct (throwing_getItem_fails_the_render Host.JSON_stringify
              Host.JSON_parse props Examples.browser Examples.a_is_0 true
              Examples.revisited "form" _ _ H1 H2 H3)
    as (Hthrown & Hconsole & _).
  split_and!; done.
Defined.

(** X14.  In a browser, for a form whose initial and current values
    serialise, the first render resolves the key and leaves the store
    as it is, and its debounced callback, when the gate is open and
    the payload fits, stores the serialised snapshot of the current
    values under that key. *)
Theorem first_render_then_write
  (JSON_stringify : value → completion (option string))
  (JSON_parse : string → completion value)
  (props : PersistFormikValuesProps) (window : binding) (quota : nat)
  (initialValues : value) (isValid : bool) (w : World)
  (key : string) (json : option string) :
  useStorage props window = Normal (Some (webStorage quota)) →
  usePersistedString_name JSON_stringify props initialValues = Normal key →
  (∀ e, JSON_stringify (values w) ≠ Throw e) →
  isValid || truthy (persistInvalid props) = true →
  JSON_stringify (snapshot props (values w)) = Normal json →
  (store_size (<[key := DOMString json]> (store w)) ≤ quota)%nat →
  ∃ rendered w1 w2,
    PersistFormikValuesMemo JSON_stringify JSON_parse props window
      initialValues isValid w = (Normal rendered, w1)
    ∧ store w1 = store w
    ∧ debounced rendered w1 = (Normal tt, w2)
    ∧ store w2 !! key = Some (DOMString json)
    ∧ values w2 = values w.
Proof.
  intros Hstorage Hkey Hvalues Hgate Hjson Hfits.
  destruct (serialisable_normal _ _ Hvalues) as [current Hcurrent].
  assert (Hget : getItem (webStorage quota) key (store w)
                 = Normal (Sync (match store w !! key with
                                 | Some v => IStr v
                                 | None => INull
                                 end))) by done.
  pose proof (usePersistedString_state_returned _ _ _ _ Hget) as Hstate.
  simpl in Hstate.
  eexists _, _, _. split_and!.
  - eapply PersistFormikValuesMemo_rendered; done.
  - done.
  - simpl. rewrite handlePersist_open by done.
    rewrite handlePersistValues_web, Hjson. simpl.
    by rewrite decide_True by by right.
  - simpl. rewrite written_lookup. by rewrite decide_True.
  - done.
Qed.

Lemma first_render_then_write_witness :
  let props := Examples.hashed "form" in
  let w := Examples.world ∅ Examples.a_is_1 in
  useStorage props Examples.browser = Normal (Some (webStorage 5000))
  ∧ usePersistedString_name Host.JSON_stringify props Examples.a_is_0
    = Normal "form_1015"
  ∧ (∀ e, Host.JSON_stringify (values w) ≠ Throw e)
  ∧ true || truthy (persistInvalid props) = true
  ∧ Host.JSON_stringify (snapshot props (values w))
    = Normal (Some (Examples.a_is 1))
  ∧ (store_size (<["form_1015" := Examples.a_is 1]> (store w)) ≤ 5000)%nat
  ∧ ∃ rendered w1 w2,
      PersistFormikValuesMemo Host.JSON_stringify Host.JSON_parse props
        Examples.browser Examples.a_is_0 true w = (Normal rendered, w1)
      ∧ store w1 = store w
      ∧ debounced rendered w1 = (Normal tt, w2)
      ∧ store w2 !! "form_1015" = Some (Examples.a_is 1)
      ∧ values w2 = values w.
Proof.
  intros props w.
  assert (H1 : useStorage props Examples.browser
               = Normal (Some (webStorage 5000))) by reflexivity.
  assert (H2 : usePersistedString_name Host.JSON_stringify props
                 Examples.a_is_0 = Normal "form_1015")
    by (vm_compute; reflexivity).
  assert (H3 : ∀ e, Host.JSON_stringify (values w) ≠ Throw e)
    by (intros e; vm_compute; discriminate).
  assert (H4 : true || truthy (persistInvalid props) = true) by reflexivity.
  assert (H5 : Host.JSON_stringify (snapshot props (values w))
               = Normal (Some (Examples.a_is 1))) by (vm_compute; reflexivity).
  assert (H6 : (store_size (<["form_1015" := Examples.a_is 1]> (store w))
                ≤ 5000)%nat) by (vm_compute; lia).
  split_and!; [done | done | done | done | done | done |].
  exact (first_render_then_write Host.JSON_stringify Host.JSON_parse props
           Examples.browser 5000 Examples.a_is_0 true w "form_1015"
           (Some (Examples.a_is 1)) H1 H2 H3 H4 H5 H6).
Defined.

(** X15.  The effect never throws and never touches the store, the
    variables of the read or the job queue.  For a falsy string it
    leaves the world as it is.  For a truthy string, when the parser
    throws, or the serialiser throws on the merged values, the world
    afterwards is the world before with one report of that exception
    added to the console, the form untouched; when neither throws,
    nothing is reported. *)
Theorem restore_reports_each_failure
  (JSON_stringify : value → completion (option string))
  (JSON_parse : string → completion value)
  (persistedString : item) (initialValues : value)
  (stringValues : option string) (w : World) :
  let restored :=
    restore JSON_stringify JSON_parse persistedString initialValues
      stringValues w in
  let reported (e : exn) :=
    with_console
      (console w ++ [("Parse persisted values is not possible", e)]) w in
  restored.1 = Normal tt
  ∧ store restored.2 = store w
  ∧ cells restored.2 = cells w
  ∧ jobs restored.2 = jobs w
  ∧ (if item_truthy persistedString
     then match JSON_parse (item_to_string persistedString) with
          | Throw e => restored.2 = reported e
          | Normal persistedValues =>
              match JSON_stringify (spread initialValues persistedValues) with
              | Throw e => restored.2 = reported e
              | Normal _ => console restored.2 = console w
              end
          end
     else restored.2 = w).
Proof.
  unfold restore, try_catch, lift, mbind, M_bind. simpl.
  destruct (item_truthy persistedString); [|done].
  destruct (JSON_parse (item_to_string persistedString)) as [pv|e]; simpl;
    [|done].
  destruct (JSON_stringify (spread initialValues pv)) as [json|e]; simpl;
    [|done].
  by case_bool_decide.
Qed.
